(** * DS_bighw: LUT extraction and greedy pairing (src/main.c)

    A shallow embedding of the netlist scanner and of the pairing loop of
    [main.c], and the properties of the specification proved about them.

    Conventions of the embedding.
    - A C string is the list of its characters before the terminating NUL.
      [xstrdup] performs the truncation at the first NUL, so every buffer the
      scanner walks is NUL-free and the end of the list plays the role of the
      terminator.
    - A cursor [const char *p] into a buffer is the suffix of the buffer that
      starts at [p]; [*p] is the head of the suffix, or NUL when it is empty.
    - The only place where the code moves a cursor beyond the terminator is
      modelled by the outcome [Overrun].
    - Loops whose trip count depends on the text take a fuel argument; the
      fuel handed out by the callers is proved sufficient.
    - [int] counters ([net_count], [n_luts], [n_pairs], loop indices) are
      bounded by the length of the text and are modelled by [nat]; the
      nesting counter [depth], which is decremented, is a [Z].
    - Allocation ([xmalloc], [realloc], the capacity fields) is not modelled. *)

From Stdlib Require Import Ascii String DecimalString DecimalNat ZArith Lia.
From stdpp Require Import base list strings sorting.

Open Scope char_scope.
Open Scope list_scope.
Open Scope nat_scope.

(** ** Characters and C strings *)

Definition cstring := list ascii.

Definition cstr (s : string) : cstring := list_ascii_of_string s.

Definition NUL : ascii := ascii_of_nat 0.
Definition LF : ascii := ascii_of_nat 10.
Definition SP : ascii := " ".

(** <ctype.h> in the "C" locale, on [unsigned char]. *)
Definition isspace (c : ascii) : bool :=
  let n := nat_of_ascii c in (n =? 32) || ((9 <=? n) && (n <=? 13)).

Definition isdigit (c : ascii) : bool :=
  let n := nat_of_ascii c in (48 <=? n) && (n <=? 57).

Definition isalpha (c : ascii) : bool :=
  let n := nat_of_ascii c in
  ((65 <=? n) && (n <=? 90)) || ((97 <=? n) && (n <=? 122)).

Definition isalnum (c : ascii) : bool := isalpha c || isdigit c.

(** [s[i]], reading the terminator at [i = strlen s]. *)
Definition char_at (s : cstring) (i : nat) : ascii := nth i s NUL.

(** [strcmp(a, b) == 0]. *)
Fixpoint strcmp_eq (a b : cstring) : bool :=
  match a, b with
  | [], [] => true
  | x :: a', y :: b' => Ascii.eqb x y && strcmp_eq a' b'
  | _, _ => false
  end.

(** [strncmp(a, b, n) == 0]. *)
Fixpoint strncmp_eq (a b : cstring) (n : nat) {struct n} : bool :=
  match n with
  | 0 => true
  | S n' =>
      match a, b with
      | [], [] => true
      | x :: a', y :: b' => Ascii.eqb x y && strncmp_eq a' b' n'
      | _, _ => false
      end
  end.

(** [xstrdup]: [strlen] stops at the first NUL, and so does the copy. *)
Fixpoint xstrdup (s : list ascii) : cstring :=
  match s with
  | [] => []
  | c :: s' => if Ascii.eqb c NUL then [] else c :: xstrdup s'
  end.

(** ** The Lut record *)

Record Lut := mkLut {
  inst : cstring;        (* instance name *)
  nets : list cstring;   (* unique input nets; net_count = length nets *)
  used : bool
}.

(** ** Lexical helpers *)

Definition is_ident_char (c : ascii) : bool :=
  isalnum c || Ascii.eqb c "_" || Ascii.eqb c "$".

Fixpoint skip_spaces (p : cstring) : cstring :=
  match p with
  | c :: p' => if isspace c then skip_spaces p' else p
  | [] => []
  end.

(** The loop [while ( *p && f( *p)) p++], returning the characters passed over
    and the cursor reached. *)
Fixpoint scan_while (f : ascii -> bool) (p : cstring) : cstring * cstring :=
  match p with
  | c :: p' =>
      if f c then let '(tok, r) := scan_while f p' in (c :: tok, r)
      else ([], p)
  | [] => ([], [])
  end.

(** [parse_identifier]: [None] is the NULL return, which leaves [*pp] alone;
    otherwise the token and the new value of [*pp]. *)
Definition parse_identifier (pp : cstring) : option (cstring * cstring) :=
  match skip_spaces pp with
  | [] => None
  | c :: p' =>
      if Ascii.eqb c "\" then
        let '(body, r) := scan_while (fun x => negb (isspace x)) p' in
        Some (c :: body, r)
      else if is_ident_char c then
        Some (scan_while is_ident_char (c :: p'))
      else None
  end.

(** ** Cell-name predicate *)

Definition is_gtp_lut_cell (cell : cstring) : bool :=
  if strcmp_eq cell (cstr "GTP_LUT6CARRY") then false
  else if negb (strncmp_eq cell (cstr "GTP_LUT") 7) then false
  else
    let p := drop 7 cell in
    if negb (isdigit (char_at p 0)) then false
    else forallb isdigit p.

(** ** Net insertion *)

(** Length left after the loop [while (end > net && isspace(end[-1])) end--]:
    walking back from the end is walking forward in the reversed string. *)
Definition trimmed_len (net : cstring) : nat :=
  length (skip_spaces (reverse net)).

(** The test of the duplicate loop, [strncmp(...) == 0 && nets[i][len] == 0]. *)
Definition same_net (net : cstring) (len : nat) (s : cstring) : bool :=
  strncmp_eq s net len && Ascii.eqb (char_at s len) NUL.

Definition lut_add_net_unique (l : Lut) (net0 : cstring) : Lut :=
  let net := skip_spaces net0 in
  match net with
  | [] => l
  | _ :: _ =>
      let len := trimmed_len net in
      if len =? 0 then l
      else if existsb (same_net net len) (nets l) then l
      else mkLut (inst l) (nets l ++ [take len net]) (used l)
  end.

(** ** Comment stripping (in place, positions kept) *)

(** [inside = true] is the inner loop that blanks the body of a comment. *)
Fixpoint strip_block_from (inside : bool) (s : cstring) : cstring :=
  match s with
  | [] => []
  | c :: s' =>
      if inside then
        match s' with
        | d :: s'' =>
            if Ascii.eqb c "*" && Ascii.eqb d "/"
            then SP :: SP :: strip_block_from false s''
            else SP :: strip_block_from true s'
        | [] => [SP]
        end
      else
        match s' with
        | d :: s'' =>
            if Ascii.eqb c "/" && Ascii.eqb d "*"
            then SP :: SP :: strip_block_from true s''
            else c :: strip_block_from false s'
        | [] => [c]
        end
  end.

Definition strip_block_comments (s : cstring) : cstring :=
  strip_block_from false s.

Fixpoint strip_line_from (inside : bool) (s : cstring) : cstring :=
  match s with
  | [] => []
  | c :: s' =>
      if inside then
        if Ascii.eqb c LF then c :: strip_line_from false s'
        else SP :: strip_line_from true s'
      else
        if Ascii.eqb c "/" && Ascii.eqb (char_at s' 0) "/"
        then SP :: strip_line_from true s'
        else c :: strip_line_from false s'
  end.

Definition strip_line_comments (s : cstring) : cstring :=
  strip_line_from false s.

(** ** Instance extraction *)

Inductive outcome (A : Type) : Type :=
| Done (a : A)
| Overrun       (* the cursor went past the terminator and was read there *)
| OutOfFuel.
Arguments Done {A} a.
Arguments Overrun {A}.
Arguments OutOfFuel {A}.

(** The port filter: the value of the local [record]. *)
Definition record_port (port : cstring) : bool :=
  if Ascii.eqb (char_at port 0) "I" then
    forallb isdigit (drop 1 port) && negb (Ascii.eqb (char_at port 1) NUL)
  else false.

(** One trip through the body of [while ( *p && depth > 0)]. *)
Inductive port_step : Type :=
| PBreak (p : cstring) (depth : Z) (lut : Lut)
| PContinue (p : cstring) (depth : Z) (lut : Lut)
| PPastEnd.   (* [p++] executed with [*p == 0] *)

Definition port_body (p0 : cstring) (depth : Z) (lut : Lut) : port_step :=
  match skip_spaces p0 with
  | [] => PPastEnd
  | c :: p1 =>
      if Ascii.eqb c ")" then PBreak p1 (depth - 1) lut
      else if Ascii.eqb c "(" then PContinue p1 (depth + 1) lut
      else if negb (Ascii.eqb c ".") then PContinue p1 depth lut
      else
        match parse_identifier p1 with
        | None => PContinue p1 depth lut
        | Some (port, p2) =>
            match skip_spaces p2 with
            | c3 :: p4 =>
                if Ascii.eqb c3 "(" then
                  let '(net, p5) :=
                    scan_while (fun x => negb (Ascii.eqb x ")")) p4 in
                  let p6 := match p5 with
                            | c5 :: r => if Ascii.eqb c5 ")" then r else p5
                            | [] => []
                            end in
                  PContinue p6 depth
                    (if record_port port then lut_add_net_unique lut net
                     else lut)
                else PContinue (c3 :: p4) depth lut
            | [] => PContinue [] depth lut
            end
        end
  end.

Fixpoint port_loop (fuel : nat) (p : cstring) (depth : Z) (lut : Lut)
  : outcome (cstring * Z * Lut) :=
  match fuel with
  | 0 => OutOfFuel
  | S fuel' =>
      match p with
      | [] => Done (p, depth, lut)
      | _ :: _ =>
          if (0 <? depth)%Z then
            match port_body p depth lut with
            | PBreak p' d' l' => Done (p', d', l')
            | PContinue p' d' l' => port_loop fuel' p' d' l'
            | PPastEnd => Overrun
            end
          else Done (p, depth, lut)
      end
  end.

(** [while ( *p && *p != ';' && *p != '\n') p++; if ( *p == ';') p++;] *)
Definition resync (p : cstring) : cstring :=
  let '(_, r) :=
    scan_while (fun c => negb (Ascii.eqb c ";") && negb (Ascii.eqb c LF)) p in
  match r with
  | c :: r' => if Ascii.eqb c ";" then r' else r
  | [] => []
  end.

(** One trip through the body of the outer [while ( *p)]; [p] is not empty. *)
Definition scan_body (p : cstring) (luts : list Lut)
  : outcome (cstring * list Lut) :=
  match parse_identifier p with
  | None => Done (drop 1 p, luts)
  | Some (cell, p1) =>
      if negb (is_gtp_lut_cell cell) then Done (p1, luts)
      else
        match parse_identifier p1 with
        | None => Done (p1, luts)
        | Some (name, p2) =>
            match skip_spaces p2 with
            | c :: p4 =>
                if Ascii.eqb c "(" then
                  match port_loop (S (length p4)) p4 1 (mkLut name [] false)
                  with
                  | Done (p5, _, lut) => Done (resync p5, luts ++ [lut])
                  | Overrun => Overrun
                  | OutOfFuel => OutOfFuel
                  end
                else Done (c :: p4, luts)
            | [] => Done ([], luts)
            end
        end
  end.

Fixpoint scan_loop (fuel : nat) (p : cstring) (luts : list Lut)
  : outcome (list Lut) :=
  match fuel with
  | 0 => OutOfFuel
  | S fuel' =>
      match p with
      | [] => Done luts
      | _ :: _ =>
          match scan_body p luts with
          | Done (p', luts') => scan_loop fuel' p' luts'
          | Overrun => Overrun
          | OutOfFuel => OutOfFuel
          end
      end
  end.

Definition parse_luts_from_buffer (buf_in : list ascii) : outcome (list Lut) :=
  let buf := strip_line_comments (strip_block_comments (xstrdup buf_in)) in
  scan_loop (S (length buf)) buf [].

(** ** Pairing *)

Fixpoint union_count_from (a_nets b_nets : list cstring) (count : nat) : bool :=
  match b_nets with
  | [] => count <=? 6
  | y :: b' =>
      if existsb (fun x => strcmp_eq x y) a_nets
      then union_count_from a_nets b' count
      else if 6 <? S count then false
           else union_count_from a_nets b' (S count)
  end.

Definition union_unique_count_le6 (a b : Lut) : bool :=
  union_count_from (nets a) (nets b) (length (nets a)).

(** The inner [for (j = ...; j < n_luts; j++)], with [cands] the instances at
    positions [j], [j+1], ...; [None] is [best == -1]. *)
Fixpoint find_best (a : Lut) (j : nat) (cands : list Lut) : option nat :=
  match cands with
  | [] => None
  | b :: cands' =>
      if used b then find_best a (S j) cands'
      else if union_unique_count_le6 a b then Some j
      else find_best a (S j) cands'
  end.

Definition set_used (l : Lut) : Lut := mkLut (inst l) (nets l) true.

(** The state of the pairing loop: the instance array and the pairs
    [(pair_a[k], pair_b[k])] for [k < n_pairs]. *)
Definition pstate : Type := list Lut * list (nat * nat).

Definition pair_body (st : pstate) (i : nat) : pstate :=
  match st.1 !! i with
  | None => st
  | Some a =>
      if used a then st
      else
        match find_best a (S i) (drop (S i) st.1) with
        | None => st
        | Some best =>
            (alter set_used best (alter set_used i st.1),
             st.2 ++ [(i, best)])
        end
  end.

Definition greedy_pairing (luts : list Lut) : pstate :=
  foldl pair_body (luts, []) (seq 0 (length luts)).

(** ** The report written by [run_one] *)

Definition print_int (n : nat) : cstring :=
  cstr (NilEmpty.string_of_uint (Nat.to_uint n)).

Definition inst_at (luts : list Lut) (k : nat) : cstring :=
  match luts !! k with Some l => inst l | None => [] end.

Definition report (st : pstate) : cstring :=
  print_int (length st.2) ++ [LF]
  ++ flat_map (fun ab => inst_at st.1 ab.1 ++ [SP] ++ inst_at st.1 ab.2 ++ [LF])
       st.2.

(** [run_one] on the contents of the input file: the extracted instances, the
    state after pairing and the text written to the result file. *)
Definition run_one (buf : list ascii) : outcome (pstate * cstring) :=
  match parse_luts_from_buffer buf with
  | Done luts => let st := greedy_pairing luts in Done (st, report st)
  | Overrun => Overrun
  | OutOfFuel => OutOfFuel
  end.

(** ** Notions used to state the properties *)

(** What [lut_add_net_unique] copies out of its argument: the text between
    the leading and the trailing white space. *)
Definition trim (net0 : cstring) : cstring :=
  take (trimmed_len (skip_spaces net0)) (skip_spaces net0).

(** A stored net: not empty, no white space at either end. *)
Definition trimmed (s : cstring) : Prop :=
  s <> [] /\ skip_spaces s = s /\ skip_spaces (reverse s) = reverse s.

Definition all_space (s : cstring) : Prop := Forall (fun c => isspace c = true) s.

Definition nul_free (s : cstring) : Prop := NUL ∉ s.

(** What holds of every instance the extractor builds. *)
Definition well_formed (l : Lut) : Prop :=
  NoDup (nets l) /\ Forall trimmed (nets l) /\ Forall nul_free (nets l)
  /\ used l = false.

(** Number of distinct net names of two instances taken together. *)
Definition union_size (a b : Lut) : nat :=
  length (remove_dups (nets a ++ nets b)).

(** The instances named by a pair sequence, one entry per slot. *)
Definition pair_members (ps : list (nat * nat)) : list nat :=
  flat_map (fun ab => [ab.1; ab.2]) ps.

(** The pairing state when the outer loop reaches index [i]. *)
Definition state_before (luts0 : list Lut) (i : nat) : pstate :=
  foldl pair_body (luts0, []) (seq 0 i).

(** [j] is a not-yet-consumed instance of [st] that fits with [a]. *)
Definition eligible (st : pstate) (a : Lut) (j : nat) : Prop :=
  exists b, st.1 !! j = Some b /\ used b = false
            /\ union_unique_count_le6 a b = true.

(** The part of an instance that pairing never writes. *)
Definition lut_data (l : Lut) : cstring * list cstring := (inst l, nets l).

(** What holds of the pairing state when the outer loop reaches index [i]. *)
Record pairing_inv (luts0 : list Lut) (i : nat) (st : pstate) : Prop := {
  inv_data : lut_data <$> st.1 = lut_data <$> luts0;
  inv_used : forall k, k ∈ pair_members st.2 ->
                       exists l, st.1 !! k = Some l /\ used l = true;
  inv_range : forall a b, (a, b) ∈ st.2 -> a < i /\ a < b;
  inv_nodup : NoDup (pair_members st.2);
  inv_sorted : StronglySorted lt (st.2.*1);
  inv_union : forall a b, (a, b) ∈ st.2 ->
                exists la lb, luts0 !! a = Some la /\ luts0 !! b = Some lb
                              /\ union_unique_count_le6 la lb = true
}.

(** The text of the end-to-end scenario. *)
Definition scenario_text : list ascii :=
  cstr "GTP_LUT6 u1 ( .I0(a), .I1(b), .I2(c), .Z(x) );" ++ [LF]
  ++ cstr "GTP_LUT6 u2 ( .I0(c), .I1(d), .Z(y) );" ++ [LF]
  ++ cstr "GTP_LUT6 u3 ( .I0(m), .I1(n), .I2(o), .I3(p), .I4(q), .I5(r), .Z(z) );"
  ++ [LF].

(** The instances of the end-to-end scenario. *)
Definition scenario_u1 : Lut :=
  mkLut (cstr "u1") [cstr "a"; cstr "b"; cstr "c"] false.
Definition scenario_u2 : Lut := mkLut (cstr "u2") [cstr "c"; cstr "d"] false.
Definition scenario_u3 : Lut :=
  mkLut (cstr "u3")
    [cstr "m"; cstr "n"; cstr "o"; cstr "p"; cstr "q"; cstr "r"] false.
Definition scenario_luts : list Lut := [scenario_u1; scenario_u2; scenario_u3].

(** ** The driver: file names *)

(** [starts_with]: the literal is a C string, so a subject that ends first
    differs from it at its terminator. *)
Fixpoint starts_with (p lit : cstring) {struct lit} : bool :=
  match lit with
  | [] => true
  | c :: lit' =>
      match p with
      | [] => false
      | x :: p' => if Ascii.eqb x c then starts_with p' lit' else false
      end
  end.

Definition ends_with (s suffix : cstring) : bool :=
  let n := length s in
  let m := length suffix in
  if n <? m then false else strcmp_eq (drop (n - m) s) suffix.

Definition INT_MAX : Z := 2147483647.

(** [*p - '0'] for a digit. *)
Definition digit_value (c : ascii) : Z := (Z.of_nat (nat_of_ascii c) - 48)%Z.

(** The digit loop of [match_design_v]: it stops at a dot or at the end of
    the name, gives up at a character that is no digit, and overflows the
    [int] accumulator when the value passes [INT_MAX]. *)
Inductive digits_result : Type :=
| DigitsStop (p : cstring) (val : Z)
| DigitsBad
| DigitsOverflow.

Fixpoint design_index (p : cstring) (val : Z) : digits_result :=
  match p with
  | [] => DigitsStop [] val
  | c :: p' =>
      if Ascii.eqb c "." then DigitsStop p val
      else if negb (isdigit c) then DigitsBad
      else
        let val' := (val * 10 + digit_value c)%Z in
        if (INT_MAX <? val')%Z then DigitsOverflow
        else design_index p' val'
  end.

(** The result of [match_design_v]: 0, or 1 with [*out_idx], or undefined
    for a signed overflow. *)
Inductive design_match : Type :=
| NoMatch
| Match (idx : Z)
| IntOverflow.

Definition match_design_v (name : cstring) : design_match :=
  if negb (starts_with name (cstr "design_")) then NoMatch
  else if negb (ends_with name (cstr ".v")) then NoMatch
  else
    let p := drop 7 name in
    if negb (isdigit (char_at p 0)) then NoMatch
    else
      match design_index p 0 with
      | DigitsStop p' val =>
          if strcmp_eq p' (cstr ".v") then Match val else NoMatch
      | DigitsBad => NoMatch
      | DigitsOverflow => IntOverflow
      end.

(** The name [main] builds with [snprintf(name, ..., "design_%d.v", idx)]. *)
Definition design_v_name (idx : nat) : cstring :=
  cstr "design_" ++ print_int idx ++ cstr ".v".

(** ** More notions used to state the properties *)

(** The value of a run of decimal digits. *)
Definition decimal_value (ds : cstring) : Z :=
  foldl (fun v c => (v * 10 + digit_value c)%Z) 0%Z ds.

(** [a] directly followed by [b] somewhere in [s]. *)
Fixpoint has_pair (a b : ascii) (s : cstring) : bool :=
  match s with
  | c :: s' => (Ascii.eqb c a && Ascii.eqb (char_at s' 0) b) || has_pair a b s'
  | [] => false
  end.

Definition blanks (n : nat) : cstring := replicate n SP.

(** The buffer that [parse_luts_from_buffer] scans. *)
Definition stripped (buf_in : list ascii) : cstring :=
  strip_line_comments (strip_block_comments (xstrdup buf_in)).

(** An identifier of the plain form. *)
Definition plain_ident (s : cstring) : Prop :=
  s <> [] /\ Forall (fun c => is_ident_char c = true) s.

(** A token as [parse_identifier] returns it: not empty, no white space. *)
Definition token (s : cstring) : Prop :=
  s <> [] /\ Forall (fun c => isspace c = false) s.

(** An instantiation in the format of the header comment of [main.c],
    [GTP_LUT6 u1 ( .I0(n1), .I1(n2), .Z(nout) );], as a cell name, an
    instance name and the port bindings (port, net expression). *)
Record instantiation := mkInstantiation {
  i_cell : cstring;
  i_name : cstring;
  i_ports : list (cstring * cstring)
}.

Definition print_binding (b : cstring * cstring) : cstring :=
  "." :: b.1 ++ "(" :: b.2 ++ [")"].

Fixpoint print_ports (bs : list (cstring * cstring)) : cstring :=
  match bs with
  | [] => []
  | b :: bs' =>
      print_binding b
      ++ match bs' with [] => [] | _ :: _ => cstr ", " ++ print_ports bs' end
  end.

Definition print_instantiation (i : instantiation) : cstring :=
  i_cell i ++ SP :: i_name i ++ cstr " ( " ++ print_ports (i_ports i)
  ++ cstr " );" ++ [LF].

Definition print_netlist (l : list instantiation) : cstring :=
  concat (map print_instantiation l).

(** A net expression that can be printed between parentheses outside of any
    comment. *)
Definition plain_net (s : cstring) : Prop :=
  Forall (fun c => c <> ")" /\ c <> "/" /\ c <> NUL) s.

Definition printable (i : instantiation) : Prop :=
  is_gtp_lut_cell (i_cell i) = true /\ plain_ident (i_name i)
  /\ Forall (fun b => plain_ident b.1 /\ plain_net b.2) (i_ports i).

(** The instance an instantiation stands for: the nets of its [I<digits>]
    ports, trimmed, first occurrences in order. *)
Definition lut_of (i : instantiation) : Lut :=
  foldl (fun l b => if record_port b.1 then lut_add_net_unique l b.2 else l)
        (mkLut (i_name i) [] false) (i_ports i).

(** The text is empty or ends in a character that is no white space. *)
Definition ends_solid (p : cstring) : Prop :=
  match last p with Some c => isspace c = false | None => True end.

(** Number of line feeds of a text. *)
Definition line_feeds (s : cstring) : nat :=
  length (filter (fun c => c = LF) s).

(** * Properties *)

(** ** C strings *)

Lemma strcmp_eq_iff (a b : cstring) : strcmp_eq a b = true <-> a = b.
Proof.
  revert b; induction a as [|x a IH]; intros [|y b]; simpl; try (split; congruence).
  rewrite andb_true_iff, Ascii.eqb_eq, IH. split.
  - intros [-> ->]; reflexivity.
  - intros H; injection H; auto.
Qed.

Lemma strncmp_prefix (b a : cstring) :
  strncmp_eq a b (length b) = true <-> exists r, a = b ++ r.
Proof.
  revert a; induction b as [|y b IH]; intros a; simpl.
  - split; [intros _; by exists a | done].
  - destruct a as [|x a].
    + split; [discriminate | intros [r Hr]; discriminate].
    + rewrite andb_true_iff, Ascii.eqb_eq, IH. split.
      * intros [-> [r ->]]; eauto.
      * intros [r Hr]; injection Hr as -> ->; eauto.
Qed.

Lemma forallb_isdigit (s : cstring) :
  forallb isdigit s = true <-> Forall (fun c => isdigit c = true) s.
Proof.
  rewrite forallb_forall, Forall_forall. split; intros H x Hx; apply H.
  - by apply list_elem_of_In.
  - by apply list_elem_of_In.
Qed.

Lemma isdigit_not_NUL (c : ascii) : isdigit c = true -> c <> NUL.
Proof. intros H ->; discriminate. Qed.

(** ** Cell-name predicate *)

Lemma is_gtp_lut_cell_digits (ds : cstring) :
  ds <> [] -> Forall (fun c => isdigit c = true) ds ->
  is_gtp_lut_cell (cstr "GTP_LUT" ++ ds) = true.
Proof.
  intros Hne Hds. unfold is_gtp_lut_cell.
  destruct (strcmp_eq _ _) eqn:Hc.
  - apply strcmp_eq_iff in Hc. simpl in Hc.
    injection Hc as ->. inversion Hds as [|? ? _ Hr]; subst.
    inversion Hr as [|? ? Hbad _]; discriminate.
  - assert (Hp : strncmp_eq (cstr "GTP_LUT" ++ ds) (cstr "GTP_LUT") 7 = true)
      by (apply (strncmp_prefix (cstr "GTP_LUT")); eauto).
    rewrite Hp. change (drop 7 (cstr "GTP_LUT" ++ ds)) with ds.
    destruct ds as [|d ds]; [done|].
    pose proof Hds as Hall. apply Forall_cons in Hds as [Hd _].
    unfold char_at; cbn [nth negb]. rewrite Hd. cbn [negb].
    by apply forallb_isdigit.
Qed.

(** C4. An identifier passes [is_gtp_lut_cell] exactly when it is the prefix
    GTP_LUT followed by one or more decimal digits and nothing else, and is not
    the string GTP_LUT6CARRY; GTP_LUT6 passes, while GTP_LUT6CARRY, GTP_LUTX
    and GTP_LUT do not. *)
Theorem cell_name_predicate :
  (forall cell : cstring,
      is_gtp_lut_cell cell = true <->
      (exists ds, cell = cstr "GTP_LUT" ++ ds /\ ds <> []
                  /\ Forall (fun c => isdigit c = true) ds)
      /\ cell <> cstr "GTP_LUT6CARRY")
  /\ is_gtp_lut_cell (cstr "GTP_LUT6") = true
  /\ is_gtp_lut_cell (cstr "GTP_LUT6CARRY") = false
  /\ is_gtp_lut_cell (cstr "GTP_LUTX") = false
  /\ is_gtp_lut_cell (cstr "GTP_LUT") = false.
Proof.
  split; [|repeat split; reflexivity].
  intros cell. split.
  - unfold is_gtp_lut_cell. intros H.
    destruct (strcmp_eq cell _) eqn:Hc; [discriminate|].
    destruct (strncmp_eq cell _ 7) eqn:Hp; [|discriminate]. simpl in H.
    apply (strncmp_prefix (cstr "GTP_LUT")) in Hp as [ds ->].
    change (drop 7 (cstr "GTP_LUT" ++ ds)) with ds in H.
    destruct (isdigit (char_at ds 0)) eqn:Hd; [|discriminate]. simpl in H.
    split.
    + exists ds. split; [reflexivity|]. split.
      * intros ->. discriminate.
      * by apply forallb_isdigit.
    + intros Heq. rewrite Heq in Hc. discriminate.
  - intros [(ds & -> & Hne & Hds) _]. by apply is_gtp_lut_cell_digits.
Qed.

Lemma cell_name_predicate_witness :
  is_gtp_lut_cell (cstr "GTP_LUT12") = true.
Proof.
  destruct cell_name_predicate as (H & _). apply (H (cstr "GTP_LUT12")).
  split; [|discriminate]. exists (cstr "12").
  split; [reflexivity|]. split; [discriminate|].
  repeat constructor.
Defined.

(** ** Port filter *)

Lemma record_port_iff (port : cstring) :
  record_port port = true <->
  2 <= length port /\ char_at port 0 = "I"
  /\ Forall (fun c => isdigit c = true) (drop 1 port).
Proof.
  unfold record_port, char_at. destruct port as [|c port]; simpl.
  - split; [discriminate | intros [? _]; lia].
  - rewrite drop_0. destruct (Ascii.eqb_spec c "I") as [->|Hc].
    + rewrite andb_true_iff, forallb_isdigit. destruct port as [|d port]; simpl.
      * split; [intros [_ ?]; discriminate | intros [? _]; lia].
      * split.
        -- intros [H _]. repeat split; [lia | done].
        -- intros (_ & _ & H). split; [done|].
           apply Forall_cons in H as [Hd _].
           apply isdigit_not_NUL in Hd. by destruct (Ascii.eqb_spec d NUL).
    + split; [discriminate | intros (_ & ? & _); done].
Qed.

(** ** The lexical helpers only move forward *)

Lemma skip_spaces_split (p : cstring) :
  exists ws, p = ws ++ skip_spaces p /\ all_space ws.
Proof.
  induction p as [|c p (ws & Hp & Hws)]; simpl.
  - exists []. split; [done | constructor].
  - destruct (isspace c) eqn:Hc.
    + exists (c :: ws). split; [simpl; congruence | by constructor].
    + exists []. split; [done | constructor].
Qed.

Lemma skip_spaces_head (p r : cstring) (c : ascii) :
  skip_spaces p = c :: r -> isspace c = false.
Proof.
  induction p as [|x p IH]; simpl; [discriminate|].
  destruct (isspace x) eqn:Hx; [done|]. by intros [= <- _].
Qed.

Lemma skip_spaces_length (p : cstring) : length (skip_spaces p) <= length p.
Proof.
  destruct (skip_spaces_split p) as (ws & Hp & _).
  rewrite Hp at 2. rewrite length_app. lia.
Qed.

Lemma skip_spaces_fixed (p : cstring) (c : ascii) :
  isspace c = false -> skip_spaces (c :: p) = c :: p.
Proof. intros H; simpl; by rewrite H. Qed.

Lemma scan_while_split (f : ascii -> bool) (p tok r : cstring) :
  scan_while f p = (tok, r) ->
  p = tok ++ r /\ Forall (fun c => f c = true) tok
  /\ match r with [] => True | c :: _ => f c = false end.
Proof.
  revert tok r; induction p as [|c p IH]; intros tok r; simpl.
  - intros [= <- <-]. repeat split; constructor.
  - destruct (f c) eqn:Hc.
    + destruct (scan_while f p) as [tok' r'] eqn:Hs. intros [= <- <-].
      destruct (IH _ _ eq_refl) as (-> & Htok & Hr).
      repeat split; [by constructor | done].
    + intros [= <- <-]. repeat split; [constructor | done].
Qed.

Lemma scan_while_length (f : ascii -> bool) (p tok r : cstring) :
  scan_while f p = (tok, r) -> length p = length tok + length r.
Proof.
  intros H. apply scan_while_split in H as (-> & _). by rewrite length_app.
Qed.

Lemma parse_identifier_split (pp tok r : cstring) :
  parse_identifier pp = Some (tok, r) ->
  tok <> [] /\ exists ws, pp = ws ++ tok ++ r /\ all_space ws.
Proof.
  unfold parse_identifier. intros H.
  destruct (skip_spaces_split pp) as (ws & Hpp & Hws).
  destruct (skip_spaces pp) as [|c p'] eqn:Hsk; [discriminate|].
  destruct (Ascii.eqb c "\").
  - destruct (scan_while _ p') as [body r'] eqn:Hs. injection H as <- <-.
    apply scan_while_split in Hs as (-> & _). split; [done|].
    exists ws. by split.
  - destruct (is_ident_char c) eqn:Hc; [|discriminate].
    injection H as H. simpl in H. rewrite Hc in H.
    destruct (scan_while is_ident_char p') as [tok' r'] eqn:Hs.
    injection H as <- <-.
    apply scan_while_split in Hs as (-> & _). split; [done|].
    exists ws. by split.
Qed.

Lemma parse_identifier_length (pp tok r : cstring) :
  parse_identifier pp = Some (tok, r) -> length r < length pp.
Proof.
  intros H. apply parse_identifier_split in H as (Hne & ws & -> & _).
  rewrite !length_app. destruct tok; [done|]. simpl. lia.
Qed.

Lemma resync_length (p : cstring) : length (resync p) <= length p.
Proof.
  unfold resync. destruct (scan_while _ p) as [tok r] eqn:Hs.
  apply scan_while_length in Hs. destruct r as [|c r]; simpl in *; [lia|].
  destruct (Ascii.eqb c ";"); simpl; lia.
Qed.

(** One trip through the port loop leaves strictly less text to read. *)
Lemma port_body_advance (p0 : cstring) (depth : Z) (lut : Lut) :
  match port_body p0 depth lut with
  | PBreak p' _ _ | PContinue p' _ _ => length p' < length p0
  | PPastEnd => skip_spaces p0 = []
  end.
Proof.
  unfold port_body. pose proof (skip_spaces_length p0) as H0.
  destruct (skip_spaces p0) as [|c p1] eqn:Hsk; [done|]. simpl in H0.
  destruct (Ascii.eqb c ")"); [lia|].
  destruct (Ascii.eqb c "("); [lia|].
  destruct (negb (Ascii.eqb c ".")); [lia|].
  destruct (parse_identifier p1) as [[port p2]|] eqn:Hid; [|lia].
  apply parse_identifier_length in Hid.
  pose proof (skip_spaces_length p2) as H2.
  destruct (skip_spaces p2) as [|c3 p4] eqn:Hsk2; [simpl; lia|]. simpl in H2.
  destruct (Ascii.eqb c3 "("); [|simpl; lia].
  destruct (scan_while _ p4) as [net p5] eqn:Hs.
  apply scan_while_length in Hs.
  destruct p5 as [|c5 r]; [simpl in *; lia|].
  destruct (Ascii.eqb c5 ")"); simpl in *; lia.
Qed.

Lemma port_loop_fuel (fuel : nat) (p : cstring) (depth : Z) (lut : Lut) :
  length p < fuel ->
  match port_loop fuel p depth lut with
  | Done (p', _, _) => length p' <= length p
  | Overrun => True
  | OutOfFuel => False
  end.
Proof.
  revert p depth lut; induction fuel as [|fuel IH]; intros p depth lut Hf;
    [lia|].
  simpl. destruct p as [|c p]; [done|].
  destruct (0 <? depth)%Z; [|done].
  pose proof (port_body_advance (c :: p) depth lut) as Hadv.
  destruct (port_body (c :: p) depth lut) as [p' d' l'|p' d' l'|]; [lia| |done].
  simpl in Hf, Hadv. specialize (IH p' d' l' ltac:(lia)).
  destruct (port_loop fuel p' d' l') as [[[p'' ?] ?]| |]; [simpl; lia|done|done].
Qed.

(** One trip through the outer loop leaves strictly less text to read, and
    never stops for lack of fuel in the port loop. *)
Lemma scan_body_advance (p : cstring) (luts : list Lut) :
  p <> [] ->
  match scan_body p luts with
  | Done (p', _) => length p' < length p
  | Overrun => True
  | OutOfFuel => False
  end.
Proof.
  intros Hp. unfold scan_body.
  destruct (parse_identifier p) as [[cell p1]|] eqn:Hid.
  2:{ destruct p; [done|]. simpl. rewrite drop_0. lia. }
  apply parse_identifier_length in Hid.
  destruct (negb (is_gtp_lut_cell cell)); [done|].
  destruct (parse_identifier p1) as [[name p2]|] eqn:Hid2; [|done].
  apply parse_identifier_length in Hid2.
  pose proof (skip_spaces_length p2) as H2.
  destruct (skip_spaces p2) as [|c p4]; [simpl; lia|]. simpl in H2.
  destruct (Ascii.eqb c "("); [|simpl; lia].
  pose proof (port_loop_fuel (S (length p4)) p4 1
                (mkLut name [] false)) as Hl.
  destruct (port_loop _ p4 1 _) as [[[p5 ?] ?]| |]; [|done|lia].
  pose proof (resync_length p5). lia.
Qed.

Lemma scan_loop_fuel (fuel : nat) (p : cstring) (luts : list Lut) :
  length p < fuel -> scan_loop fuel p luts <> OutOfFuel.
Proof.
  revert p luts; induction fuel as [|fuel IH]; intros p luts Hf; [lia|].
  simpl. destruct p as [|c p]; [done|].
  pose proof (scan_body_advance (c :: p) luts ltac:(done)) as Hadv.
  destruct (scan_body (c :: p) luts) as [[p' luts']| |]; [|done|done].
  apply IH. simpl in Hf, Hadv. lia.
Qed.

(** The fuel that [parse_luts_from_buffer] hands out is enough: extraction
    either returns its instance list or runs off the end of the buffer. *)
Lemma parse_luts_from_buffer_fuel (buf_in : list ascii) :
  parse_luts_from_buffer buf_in <> OutOfFuel.
Proof. apply scan_loop_fuel. lia. Qed.

(** More fuel does not change a result. *)
Lemma scan_loop_more_fuel (fuel fuel' : nat) (p : cstring) (luts : list Lut) :
  length p < fuel -> length p < fuel' ->
  scan_loop fuel p luts = scan_loop fuel' p luts.
Proof.
  revert fuel' p luts; induction fuel as [|fuel IH]; intros fuel' p luts Hf Hf';
    [lia|].
  destruct fuel' as [|fuel']; [lia|]. simpl.
  destruct p as [|c p]; [done|].
  pose proof (scan_body_advance (c :: p) luts ltac:(done)) as Hadv.
  destruct (scan_body (c :: p) luts) as [[p' luts']| |]; [|done|done].
  simpl in *. apply IH; lia.
Qed.

(** ** Malformed instantiations *)

(** C6, as amended. After a cell name that passes the predicate, a missing
    instance name or a missing opening parenthesis appends nothing, reports
    nothing, and the scan goes on from the cursor reached (behind the cell
    name, resp. at the first non-blank character behind the instance name).
    A port list that the end of the input cuts off while the nesting depth is
    still positive does not discard the instance: it is appended with the
    nets recorded so far. *)
Theorem malformed_instantiation_policy
  (fuel : nat) (p cell p1 : cstring) (luts : list Lut) :
  parse_identifier p = Some (cell, p1) ->
  is_gtp_lut_cell cell = true ->
  (parse_identifier p1 = None ->
     scan_body p luts = Done (p1, luts)
     /\ scan_loop (S fuel) p luts = scan_loop fuel p1 luts)
  /\ (forall name p2,
         parse_identifier p1 = Some (name, p2) ->
         char_at (skip_spaces p2) 0 <> "(" ->
         scan_body p luts = Done (skip_spaces p2, luts)
         /\ scan_loop (S fuel) p luts = scan_loop fuel (skip_spaces p2) luts)
  /\ (forall name p2 p4 depth lut,
         parse_identifier p1 = Some (name, p2) ->
         skip_spaces p2 = "(" :: p4 ->
         port_loop (S (length p4)) p4 1 (mkLut name [] false)
         = Done ([], depth, lut) ->
         (0 < depth)%Z ->
         scan_body p luts = Done ([], luts ++ [lut])
         /\ scan_loop (S (S fuel)) p luts = Done (luts ++ [lut])).
Proof.
  intros Hid Hcell.
  assert (Hp : p <> []) by (intros ->; discriminate).
  assert (Hloop : forall r, scan_body p luts = Done r ->
            scan_loop (S fuel) p luts = scan_loop fuel r.1 r.2).
  { intros [p' luts'] Hb. simpl. destruct p; [done|]. by rewrite Hb. }
  split; [|split].
  - intros Hn.
    assert (Hb : scan_body p luts = Done (p1, luts)).
    { unfold scan_body. by rewrite Hid, Hcell, Hn. }
    split; [done | by apply (Hloop _ Hb)].
  - intros name p2 Hn Hpar.
    assert (Hb : scan_body p luts = Done (skip_spaces p2, luts)).
    { unfold scan_body. rewrite Hid, Hcell, Hn. cbn [negb].
      destruct (skip_spaces p2) as [|c p4]; [done|].
      destruct (Ascii.eqb_spec c "(") as [->|_]; [done|done]. }
    split; [done | by apply (Hloop _ Hb)].
  - intros name p2 p4 depth lut Hn Hpar Hports _.
    assert (Hb : scan_body p luts = Done ([], luts ++ [lut])).
    { unfold scan_body. rewrite Hid, Hcell, Hn, Hpar. cbn [negb Ascii.eqb Bool.eqb].
      by rewrite Hports. }
    split; [done|].
    destruct p; [done|]. cbn [scan_loop]. by rewrite Hb.
Qed.

Lemma malformed_instantiation_policy_witness :
  (scan_body (cstr "GTP_LUT6 ( .I0(a) );") []
   = Done (cstr " ( .I0(a) );", [])
   /\ scan_loop 21 (cstr "GTP_LUT6 ( .I0(a) );") []
      = scan_loop 20 (cstr " ( .I0(a) );") [])
  /\ (scan_body (cstr "GTP_LUT6 u1 , .I0(a) );") []
      = Done (cstr ", .I0(a) );", [])
      /\ scan_loop 24 (cstr "GTP_LUT6 u1 , .I0(a) );") []
         = scan_loop 23 (cstr ", .I0(a) );") [])
  /\ (scan_body (cstr "GTP_LUT6 u1 ( .I0(a)") []
      = Done ([], [mkLut (cstr "u1") [cstr "a"] false])
      /\ scan_loop 22 (cstr "GTP_LUT6 u1 ( .I0(a)") []
         = Done [mkLut (cstr "u1") [cstr "a"] false]).
Proof.
  split; [|split].
  - apply (malformed_instantiation_policy 20 (cstr "GTP_LUT6 ( .I0(a) );")
             (cstr "GTP_LUT6") (cstr " ( .I0(a) );") []); reflexivity.
  - destruct (malformed_instantiation_policy 23
                (cstr "GTP_LUT6 u1 , .I0(a) );") (cstr "GTP_LUT6")
                (cstr " u1 , .I0(a) );") [] eq_refl eq_refl) as (_ & H & _).
    apply (H (cstr "u1") (cstr " , .I0(a) );")); [reflexivity|].
    simpl. discriminate.
  - destruct (malformed_instantiation_policy 20
                (cstr "GTP_LUT6 u1 ( .I0(a)") (cstr "GTP_LUT6")
                (cstr " u1 ( .I0(a)") [] eq_refl eq_refl) as (_ & _ & H).
    apply (H (cstr "u1") (cstr " ( .I0(a)") (cstr " .I0(a)") 1%Z
             (mkLut (cstr "u1") [cstr "a"] false)); reflexivity.
Defined.

(** C6, as stated, fails: the input ends inside the port list of [u1] (the
    port loop stops at the end of the text with depth 1), and [u1] is in the
    extractor's output all the same. *)
Lemma truncated_port_list_yields_instance :
  port_loop 8 (cstr " .I0(a)") 1 (mkLut (cstr "u1") [] false)
  = Done ([], 1%Z, mkLut (cstr "u1") [cstr "a"] false)
  /\ parse_luts_from_buffer (cstr "GTP_LUT6 u1 ( .I0(a)")
     = Done [mkLut (cstr "u1") [cstr "a"] false].
Proof. split; reflexivity. Qed.

(** ** Nested parentheses in a port list *)

(** C7. On [GTP_LUT6 u ( ( .I0(a) ) .I1(b) )] the port loop leaves at the
    first closing parenthesis it meets at the top of the loop, with the depth
    counter still at 1 and [.I1(b) )] unread; the instance has the single
    input [a]. *)
Theorem port_list_ends_at_first_closing_paren :
  port_loop 22 (cstr " ( .I0(a) ) .I1(b) )") 1 (mkLut (cstr "u") [] false)
  = Done (cstr " .I1(b) )", 1%Z, mkLut (cstr "u") [cstr "a"] false)
  /\ parse_luts_from_buffer (cstr "GTP_LUT6 u ( ( .I0(a) ) .I1(b) )")
     = Done [mkLut (cstr "u") [cstr "a"] false].
Proof. split; reflexivity. Qed.

(** ** Running off the end of the buffer *)

(** The port loop steps over the terminator exactly when only white space is
    left in front of it. *)
Lemma port_body_past_end (p0 : cstring) (depth : Z) (lut : Lut) :
  port_body p0 depth lut = PPastEnd <-> skip_spaces p0 = [].
Proof.
  split.
  - intros H. pose proof (port_body_advance p0 depth lut) as Hadv.
    by rewrite H in Hadv.
  - intros H. unfold port_body. by rewrite H.
Qed.

(** C10. On [GTP_LUT6 u ( ] (a port list cut off after white space) the port
    loop finds the terminator behind the white space and steps over it: the
    cursor leaves the text. *)
Theorem port_loop_overruns_buffer :
  port_body (cstr " ") 1 (mkLut (cstr "u") [] false) = PPastEnd
  /\ parse_luts_from_buffer (cstr "GTP_LUT6 u ( ") = Overrun.
Proof. split; reflexivity. Qed.

(** ** End-to-end scenario *)

(** C1. On the three-line scenario, extraction yields u1{a,b,c}, u2{c,d} and
    u3{m,n,o,p,q,r} in this order, pairing yields the single pair (u1,u2),
    whose union has 4 nets, u3 stays unconsumed, and the report is the line
    [1] followed by the line [u1 u2]; the same with the last line of the text
    left without its line feed. *)
Theorem end_to_end_scenario :
  parse_luts_from_buffer scenario_text = Done scenario_luts
  /\ greedy_pairing scenario_luts
     = ([set_used scenario_u1; set_used scenario_u2; scenario_u3], [(0, 1)])
  /\ union_size scenario_u1 scenario_u2 = 4
  /\ run_one scenario_text
     = Done (([set_used scenario_u1; set_used scenario_u2; scenario_u3],
              [(0, 1)]),
             cstr "1" ++ [LF] ++ cstr "u1 u2" ++ [LF])
  /\ run_one (take (length scenario_text - 1) scenario_text)
     = run_one scenario_text.
Proof. repeat split; vm_compute; reflexivity. Qed.

(** ** Trimming and duplicate suppression *)

Lemma skip_spaces_idem (p : cstring) : skip_spaces (skip_spaces p) = skip_spaces p.
Proof.
  destruct (skip_spaces p) as [|c r] eqn:H; [done|].
  apply skip_spaces_fixed. by apply skip_spaces_head in H.
Qed.

Lemma trimmed_len_le (n : cstring) : trimmed_len n <= length n.
Proof.
  unfold trimmed_len. pose proof (skip_spaces_length (reverse n)) as H.
  by rewrite length_reverse in H.
Qed.

Lemma take_trimmed_len (n : cstring) :
  take (trimmed_len n) n = reverse (skip_spaces (reverse n))
  /\ exists ws, n = take (trimmed_len n) n ++ ws /\ all_space ws.
Proof.
  unfold trimmed_len.
  destruct (skip_spaces_split (reverse n)) as (ws & Hn & Hws).
  assert (Hn' : n = reverse (skip_spaces (reverse n)) ++ reverse ws).
  { rewrite <- reverse_app, <- Hn. by rewrite reverse_involutive. }
  assert (Ht : take (length (skip_spaces (reverse n))) n
               = reverse (skip_spaces (reverse n))).
  { rewrite Hn' at 2. rewrite take_app_length'; [done|].
    by rewrite length_reverse. }
  split; [done|]. exists (reverse ws). rewrite Ht. split; [done|].
  unfold all_space. by apply Forall_reverse.
Qed.

Lemma trim_split (net : cstring) :
  exists ws1 ws2,
    net = ws1 ++ trim net ++ ws2 /\ all_space ws1 /\ all_space ws2
    /\ (trim net = [] \/ trimmed (trim net)).
Proof.
  unfold trim.
  destruct (skip_spaces_split net) as (ws1 & Hnet & Hws1).
  set (n := skip_spaces net) in *.
  destruct (take_trimmed_len n) as (Ht & ws2 & Hn & Hws2).
  exists ws1, ws2. split; [by rewrite <- Hn|]. split; [done|]. split; [done|].
  destruct (take (trimmed_len n) n) as [|c t] eqn:Htk; [by left|]. right.
  split; [done|]. split.
  - apply skip_spaces_fixed. destruct n as [|c' n'] eqn:En; [done|].
    injection Hn as <- _. apply (skip_spaces_head net n'). exact En.
  - rewrite Ht, reverse_involutive. apply skip_spaces_idem.
Qed.

Lemma strncmp_eq_take (n : nat) (net : cstring) :
  n <= length net -> strncmp_eq (take n net) net n = true.
Proof.
  revert net; induction n as [|n IH]; intros net Hn; [done|].
  destruct net as [|c net]; simpl in *; [lia|].
  rewrite IH by lia. by rewrite Ascii.eqb_refl.
Qed.

Lemma strncmp_eq_inv (n : nat) (s net : cstring) :
  n <= length net -> strncmp_eq s net n = true ->
  n <= length s /\ take n s = take n net.
Proof.
  revert s net; induction n as [|n IH]; intros s net Hn H.
  - split; [lia | done].
  - destruct net as [|c net]; simpl in Hn; [lia|].
    destruct s as [|x s]; simpl in H; [done|].
    apply andb_true_iff in H as [Hx H]. apply Ascii.eqb_eq in Hx as ->.
    destruct (IH s net ltac:(lia) H) as [Hl Ht].
    split; [simpl; lia | simpl; by rewrite Ht].
Qed.

Lemma same_net_take (net : cstring) (len : nat) :
  len <= length net -> same_net net len (take len net) = true.
Proof.
  intros H. unfold same_net. rewrite strncmp_eq_take by done.
  unfold char_at. rewrite nth_overflow; [done|].
  rewrite length_take. lia.
Qed.

Lemma same_net_inv (net s : cstring) (len : nat) :
  len <= length net -> nul_free s ->
  same_net net len s = true -> s = take len net.
Proof.
  unfold same_net, nul_free. intros Hlen Hs H.
  apply andb_true_iff in H as [H1 H2]. apply Ascii.eqb_eq in H2.
  destruct (strncmp_eq_inv _ _ _ Hlen H1) as [Hl Ht].
  destruct (decide (len = length s)) as [->|Hne].
  - by rewrite take_ge in Ht by lia.
  - exfalso. apply Hs. rewrite <- H2. unfold char_at.
    apply list_elem_of_In, nth_In. lia.
Qed.

Lemma lut_add_net_unique_cases (l : Lut) (net : cstring) :
  (trim net = [] \/ trim net ∈ nets l -> lut_add_net_unique l net = l)
  /\ (lut_add_net_unique l net = l
      \/ (trim net <> [] /\ (trim net ∉ nets l)
          /\ lut_add_net_unique l net
             = mkLut (inst l) (nets l ++ [trim net]) (used l))).
Proof.
  unfold lut_add_net_unique, trim.
  set (n := skip_spaces net). set (len := trimmed_len n).
  pose proof (trimmed_len_le n) as Hle. fold len in Hle.
  destruct n as [|c n'] eqn:En; [split; auto|]. rewrite <- En in *.
  destruct (Nat.eqb_spec len 0) as [H0|H0]; [split; auto|].
  destruct (existsb (same_net n len) (nets l)) eqn:Hex; [split; auto|].
  assert (Hnin : take len n ∉ nets l).
  { intros Hin. apply list_elem_of_In in Hin.
    assert (existsb (same_net n len) (nets l) = true); [|congruence].
    apply existsb_exists. exists (take len n). split; [done|].
    by apply same_net_take. }
  assert (Hne : take len n <> []).
  { intros Hnil. apply (f_equal length) in Hnil.
    rewrite length_take in Hnil. simpl in Hnil. lia. }
  split; [intros [?|?]; done | right; done].
Qed.

Lemma lut_add_net_unique_new (l : Lut) (net : cstring) :
  Forall nul_free (nets l) -> trim net <> [] -> trim net ∉ nets l ->
  lut_add_net_unique l net = mkLut (inst l) (nets l ++ [trim net]) (used l).
Proof.
  unfold lut_add_net_unique, trim.
  set (n := skip_spaces net). set (len := trimmed_len n).
  pose proof (trimmed_len_le n) as Hle. fold len in Hle.
  intros Hnf Hne Hnin.
  destruct n as [|c n'] eqn:En; [by rewrite take_nil in Hne|]. rewrite <- En in *.
  destruct (Nat.eqb_spec len 0) as [H0|H0]; [by rewrite H0 in Hne|].
  destruct (existsb (same_net n len) (nets l)) eqn:Hex; [|done].
  apply existsb_exists in Hex as (s & Hin & Hs).
  apply list_elem_of_In in Hin.
  rewrite Forall_forall in Hnf.
  apply same_net_inv in Hs; [|done|by apply Hnf]. by subst s.
Qed.

(** ** Port bindings *)

Lemma lut_add_net_unique_elem (l : Lut) (net : cstring) :
  Forall nul_free (nets l) -> trim net <> [] ->
  trim net ∈ nets (lut_add_net_unique l net).
Proof.
  intros Hnf Hne. destruct (decide (trim net ∈ nets l)) as [Hin|Hnin].
  - destruct (lut_add_net_unique_cases l net) as [-> _]; auto.
  - rewrite lut_add_net_unique_new by done. simpl.
    apply elem_of_app. right. apply list_elem_of_here.
Qed.

Lemma lut_add_net_unique_nets (l : Lut) (net x : cstring) :
  x ∈ nets (lut_add_net_unique l net) -> x ∈ nets l \/ x = trim net.
Proof.
  destruct (lut_add_net_unique_cases l net) as [_ [->|(_ & _ & ->)]];
    [auto|].
  simpl. intros [?|Hx]%elem_of_app; [auto|].
  right. by apply list_elem_of_singleton in Hx.
Qed.

(** C5. The port filter [record] is set exactly for port names of length at
    least 2 that start with I and continue with decimal digits only.  A
    binding [.port(expr)] hands [expr] to [lut_add_net_unique] when the filter
    is set and leaves the instance alone otherwise: with the filter set the
    trimmed text of [expr], unless empty, is among the inputs afterwards, and
    nothing else is ever added.  [.I0(n1)] is recorded, [.I(n1)], [.Z(n1)] and
    [.ISO3(n1)] are read and not recorded. *)
Theorem port_filter :
  (forall port : cstring,
      record_port port = true <->
      2 <= length port /\ char_at port 0 = "I"
      /\ Forall (fun c => isdigit c = true) (drop 1 port))
  /\ (forall (p0 p1 port p2 p4 : cstring) (depth : Z) (lut : Lut),
         skip_spaces p0 = "." :: p1 ->
         parse_identifier p1 = Some (port, p2) ->
         skip_spaces p2 = "(" :: p4 ->
         Forall nul_free (nets lut) ->
         let net := (scan_while (fun x => negb (Ascii.eqb x ")")) p4).1 in
         exists p6 lut',
           port_body p0 depth lut = PContinue p6 depth lut'
           /\ lut' = (if record_port port then lut_add_net_unique lut net
                      else lut)
           /\ (record_port port = false -> lut' = lut)
           /\ (record_port port = true -> trim net <> [] ->
               trim net ∈ nets lut')
           /\ (forall x, x ∈ nets lut' ->
                  x ∈ nets lut \/ (record_port port = true /\ x = trim net)))
  /\ port_body (cstr ".I0(n1)") 1 (mkLut [] [] false)
     = PContinue [] 1 (mkLut [] [cstr "n1"] false)
  /\ port_body (cstr ".I(n1)") 1 (mkLut [] [] false)
     = PContinue [] 1 (mkLut [] [] false)
  /\ port_body (cstr ".Z(n1)") 1 (mkLut [] [] false)
     = PContinue [] 1 (mkLut [] [] false)
  /\ port_body (cstr ".ISO3(n1)") 1 (mkLut [] [] false)
     = PContinue [] 1 (mkLut [] [] false).
Proof.
  split; [exact record_port_iff|].
  split; [|repeat split; reflexivity].
  intros p0 p1 port p2 p4 depth lut H0 H1 H2 Hnf net.
  unfold port_body. rewrite H0. cbn [Ascii.eqb Bool.eqb negb].
  rewrite H1, H2. cbn [Ascii.eqb Bool.eqb]. subst net.
  destruct (scan_while _ p4) as [net p5]. cbn [fst].
  eexists _, _. split; [reflexivity|]. split; [reflexivity|].
  destruct (record_port port).
  - split; [discriminate|]. split.
    + intros _ Hne. by apply lut_add_net_unique_elem.
    + intros x [?|?]%lut_add_net_unique_nets; auto.
  - split; [done|]. split; [discriminate | auto].
Qed.

Lemma port_filter_witness :
  exists p6 lut',
    port_body (cstr " .I12( w ) )") 1 (mkLut (cstr "u") [] false)
    = PContinue p6 1 lut'
    /\ lut' = mkLut (cstr "u") [cstr "w"] false
    /\ (true = false -> lut' = mkLut (cstr "u") [] false)
    /\ (true = true -> cstr "w" <> [] -> cstr "w" ∈ nets lut')
    /\ (forall x, x ∈ nets lut' ->
           x ∈ [] \/ (true = true /\ x = cstr "w")).
Proof.
  destruct port_filter as (_ & H & _).
  apply (H (cstr " .I12( w ) )") (cstr "I12( w ) )") (cstr "I12")
           (cstr "( w ) )") (cstr " w ) )") 1%Z
           (mkLut (cstr "u") [] false)); try reflexivity.
  constructor.
Defined.

(** ** The buffer that is scanned is NUL-free *)

Lemma nul_free_app (a b : cstring) :
  nul_free (a ++ b) <-> nul_free a /\ nul_free b.
Proof. unfold nul_free. rewrite elem_of_app. tauto. Qed.

Lemma nul_free_cons (c : ascii) (s : cstring) :
  nul_free (c :: s) <-> c <> NUL /\ nul_free s.
Proof. unfold nul_free. rewrite elem_of_cons. split; [|intros [? ?] [?|?]]; auto. Qed.

Lemma nul_free_xstrdup (s : list ascii) : nul_free (xstrdup s).
Proof.
  induction s as [|c s IH]; simpl; [apply not_elem_of_nil|].
  destruct (Ascii.eqb_spec c NUL); [apply not_elem_of_nil|].
  by apply nul_free_cons.
Qed.

Lemma nul_free_SP (s : cstring) : nul_free s -> nul_free (SP :: s).
Proof. intros H. by apply nul_free_cons. Qed.

Lemma strip_block_from_cons (inside : bool) (c d : ascii) (s : cstring) :
  strip_block_from inside (c :: d :: s) =
  if inside then
    if Ascii.eqb c "*" && Ascii.eqb d "/"
    then SP :: SP :: strip_block_from false s
    else SP :: strip_block_from true (d :: s)
  else
    if Ascii.eqb c "/" && Ascii.eqb d "*"
    then SP :: SP :: strip_block_from true s
    else c :: strip_block_from false (d :: s).
Proof. by destruct inside. Qed.

Lemma nul_free_strip_block (inside : bool) (s : cstring) :
  nul_free s -> nul_free (strip_block_from inside s).
Proof.
  remember (length s) as k eqn:Hk. revert inside s Hk.
  induction k as [k IH] using lt_wf_ind. intros inside s -> Hs.
  destruct s as [|c s]; [done|]. apply nul_free_cons in Hs as [Hc Hs].
  destruct s as [|d s].
  - destruct inside; simpl; apply nul_free_cons; split;
      done || apply not_elem_of_nil.
  - rewrite strip_block_from_cons.
    pose proof Hs as Hds. apply nul_free_cons in Hs as [Hd Hs].
    assert (H1 : forall b, nul_free (strip_block_from b s))
      by (intros b; eapply IH; [|reflexivity|done]; simpl; lia).
    assert (H2 : forall b, nul_free (strip_block_from b (d :: s)))
      by (intros b; eapply IH; [|reflexivity|done]; simpl; lia).
    destruct inside; destruct (_ && _); repeat apply nul_free_SP; auto.
    by apply nul_free_cons.
Qed.

Lemma nul_free_strip_line (inside : bool) (s : cstring) :
  nul_free s -> nul_free (strip_line_from inside s).
Proof.
  revert inside; induction s as [|c s IH]; intros inside Hs; [done|].
  apply nul_free_cons in Hs as [Hc Hs].
  destruct inside; cbn [strip_line_from].
  - destruct (Ascii.eqb c LF); [apply nul_free_cons | apply nul_free_SP]; auto.
  - destruct (_ && _); [apply nul_free_SP | apply nul_free_cons]; auto.
Qed.

Lemma nul_free_skip_spaces (p : cstring) : nul_free p -> nul_free (skip_spaces p).
Proof.
  destruct (skip_spaces_split p) as (ws & Hp & _). intros H.
  rewrite Hp in H. by apply nul_free_app in H as [_ ?].
Qed.

Lemma nul_free_scan_while (f : ascii -> bool) (p tok r : cstring) :
  scan_while f p = (tok, r) -> nul_free p -> nul_free tok /\ nul_free r.
Proof.
  intros H Hp. apply scan_while_split in H as (-> & _).
  by apply nul_free_app.
Qed.

Lemma nul_free_parse_identifier (pp tok r : cstring) :
  parse_identifier pp = Some (tok, r) -> nul_free pp ->
  nul_free tok /\ nul_free r.
Proof.
  intros H Hp. apply parse_identifier_split in H as (_ & ws & -> & _).
  apply nul_free_app in Hp as [_ Hp]. by apply nul_free_app.
Qed.

Lemma nul_free_resync (p : cstring) : nul_free p -> nul_free (resync p).
Proof.
  unfold resync. intros Hp.
  destruct (scan_while _ p) as [tok r] eqn:Hs.
  apply nul_free_scan_while in Hs as [_ Hr]; [|done].
  destruct r as [|c r]; [done|].
  destruct (Ascii.eqb c ";"); [|done]. by apply nul_free_cons in Hr as [_ ?].
Qed.

Lemma nul_free_trim (net : cstring) : nul_free net -> nul_free (trim net).
Proof.
  destruct (trim_split net) as (ws1 & ws2 & Hnet & _). intros H.
  rewrite Hnet in H. apply nul_free_app in H as [_ H].
  by apply nul_free_app in H as [? _].
Qed.

(** ** An invariant of every extracted instance *)

Section Extraction_invariant.

Variable P : Lut -> Prop.
Hypothesis P_add :
  forall l net, nul_free net -> P l -> P (lut_add_net_unique l net).
Hypothesis P_new : forall name, nul_free name -> P (mkLut name [] false).

Lemma port_body_inv (p0 : cstring) (depth : Z) (lut : Lut) :
  nul_free p0 -> P lut ->
  match port_body p0 depth lut with
  | PBreak p' _ l' | PContinue p' _ l' => nul_free p' /\ P l'
  | PPastEnd => True
  end.
Proof.
  intros Hp Hl. unfold port_body.
  apply nul_free_skip_spaces in Hp.
  destruct (skip_spaces p0) as [|c p1]; [done|].
  apply nul_free_cons in Hp as [_ Hp1].
  destruct (Ascii.eqb c ")"); [done|].
  destruct (Ascii.eqb c "("); [done|].
  destruct (negb (Ascii.eqb c ".")); [done|].
  destruct (parse_identifier p1) as [[port p2]|] eqn:Hid; [|done].
  apply nul_free_parse_identifier in Hid as [_ Hp2]; [|done].
  apply nul_free_skip_spaces in Hp2.
  destruct (skip_spaces p2) as [|c3 p4]; [done|].
  destruct (Ascii.eqb c3 "("); [|done].
  apply nul_free_cons in Hp2 as [_ Hp4].
  destruct (scan_while _ p4) as [net p5] eqn:Hs.
  apply nul_free_scan_while in Hs as [Hnet Hp5]; [|done].
  split.
  - destruct p5 as [|c5 r]; [done|].
    destruct (Ascii.eqb c5 ")"); [|done].
    by apply nul_free_cons in Hp5 as [_ ?].
  - destruct (record_port port); auto.
Qed.

Lemma port_loop_inv (fuel : nat) (p : cstring) (depth : Z) (lut : Lut) :
  nul_free p -> P lut ->
  match port_loop fuel p depth lut with
  | Done (p', _, l') => nul_free p' /\ P l'
  | _ => True
  end.
Proof.
  revert p depth lut; induction fuel as [|fuel IH]; intros p depth lut Hp Hl;
    [done|].
  simpl. destruct p as [|c p]; [done|].
  destruct (0 <? depth)%Z; [|done].
  pose proof (port_body_inv (c :: p) depth lut Hp Hl) as Hb.
  destruct (port_body (c :: p) depth lut) as [p' d' l'|p' d' l'|];
    [done| |done].
  destruct Hb as [Hp' Hl']. by apply IH.
Qed.

Lemma scan_body_inv (p : cstring) (luts : list Lut) :
  nul_free p -> Forall P luts ->
  match scan_body p luts with
  | Done (p', luts') => nul_free p' /\ Forall P luts'
  | _ => True
  end.
Proof.
  intros Hp Hl. unfold scan_body.
  destruct (parse_identifier p) as [[cell p1]|] eqn:Hid.
  2:{ split; [|done]. destruct p as [|c p]; [done|].
      simpl. rewrite drop_0. by apply nul_free_cons in Hp as [_ ?]. }
  apply nul_free_parse_identifier in Hid as [_ Hp1]; [|done].
  destruct (negb (is_gtp_lut_cell cell)); [done|].
  destruct (parse_identifier p1) as [[name p2]|] eqn:Hid2; [|done].
  apply nul_free_parse_identifier in Hid2 as [Hname Hp2]; [|done].
  apply nul_free_skip_spaces in Hp2.
  destruct (skip_spaces p2) as [|c p4]; [done|].
  destruct (Ascii.eqb c "("); [|done].
  apply nul_free_cons in Hp2 as [_ Hp4].
  pose proof (port_loop_inv (S (length p4)) p4 1 (mkLut name [] false)
                Hp4 (P_new name Hname)) as Hloop.
  destruct (port_loop _ p4 1 _) as [[[p5 d] lut]| |]; [|done|done].
  destruct Hloop as [Hp5 Hlut]. split; [by apply nul_free_resync|].
  apply Forall_app. split; [done | by constructor].
Qed.

Lemma scan_loop_inv (fuel : nat) (p : cstring) (luts res : list Lut) :
  nul_free p -> Forall P luts ->
  scan_loop fuel p luts = Done res -> Forall P res.
Proof.
  revert p luts; induction fuel as [|fuel IH]; intros p luts Hp Hl;
    [done|].
  simpl. destruct p as [|c p]; [by intros [= <-]|].
  pose proof (scan_body_inv (c :: p) luts Hp Hl) as Hb.
  destruct (scan_body (c :: p) luts) as [[p' luts']| |]; [|done|done].
  destruct Hb as [Hp' Hl']. by apply IH.
Qed.

Lemma parse_luts_from_buffer_inv (buf_in : list ascii) (luts : list Lut) :
  parse_luts_from_buffer buf_in = Done luts -> Forall P luts.
Proof.
  apply scan_loop_inv; [|constructor].
  apply nul_free_strip_line, nul_free_strip_block, nul_free_xstrdup.
Qed.

End Extraction_invariant.

Lemma well_formed_add (l : Lut) (net : cstring) :
  nul_free net -> well_formed l -> well_formed (lut_add_net_unique l net).
Proof.
  intros Hnet (Hnd & Htr & Hnf & Hu).
  destruct (lut_add_net_unique_cases l net) as [_ [->|(Hne & Hnin & ->)]];
    [done|].
  destruct (trim_split net) as (_ & _ & _ & _ & _ & [?|Ht]); [done|].
  repeat split; simpl; [| | |done].
  - apply NoDup_app. repeat split; [done| |apply NoDup_singleton].
    intros x Hx ->%list_elem_of_singleton. done.
  - apply Forall_app. split; [done | by constructor].
  - apply Forall_app. split; [done|]. constructor; [|done].
    by apply nul_free_trim.
Qed.

Lemma well_formed_new (name : cstring) : well_formed (mkLut name [] false).
Proof. repeat split; simpl; constructor. Qed.

Lemma extracted_well_formed (buf_in : list ascii) (luts : list Lut) :
  parse_luts_from_buffer buf_in = Done luts -> Forall well_formed luts.
Proof.
  apply parse_luts_from_buffer_inv.
  - apply well_formed_add.
  - intros name _. apply well_formed_new.
Qed.

(** C8. Every extracted instance has pairwise different inputs, each of them
    non-empty and without white space at either end.  [lut_add_net_unique]
    reduces its argument to the text between the leading and the trailing
    white space; when nothing is left or that text is already an input the
    instance is unchanged, and otherwise the text is appended behind the
    inputs already there. *)
Theorem duplicate_free_trimmed_inputs :
  (forall (buf_in : list ascii) (luts : list Lut),
      parse_luts_from_buffer buf_in = Done luts ->
      Forall (fun l => NoDup (nets l) /\ Forall trimmed (nets l)) luts)
  /\ (forall net : cstring,
         exists ws1 ws2,
           net = ws1 ++ trim net ++ ws2 /\ all_space ws1 /\ all_space ws2
           /\ (trim net = [] \/ trimmed (trim net)))
  /\ (forall (l : Lut) (net : cstring),
         trim net = [] \/ trim net ∈ nets l -> lut_add_net_unique l net = l)
  /\ (forall (l : Lut) (net : cstring),
         lut_add_net_unique l net = l
         \/ lut_add_net_unique l net
            = mkLut (inst l) (nets l ++ [trim net]) (used l))
  /\ (forall (l : Lut) (net : cstring),
         Forall nul_free (nets l) -> trim net <> [] -> trim net ∉ nets l ->
         lut_add_net_unique l net
         = mkLut (inst l) (nets l ++ [trim net]) (used l)).
Proof.
  split; [|split; [|split; [|split]]].
  - intros buf_in luts H. apply extracted_well_formed in H.
    eapply Forall_impl; [exact H|]. by intros l (? & ? & _).
  - exact trim_split.
  - intros l net. apply lut_add_net_unique_cases.
  - intros l net.
    destruct (lut_add_net_unique_cases l net) as [_ [?|(_ & _ & ?)]]; auto.
  - exact lut_add_net_unique_new.
Qed.

Lemma duplicate_free_trimmed_inputs_witness :
  Forall (fun l => NoDup (nets l) /\ Forall trimmed (nets l))
    [mkLut (cstr "u1") [cstr "a"; cstr "b"; cstr "c"] false;
     mkLut (cstr "u2") [cstr "c"; cstr "d"] false;
     mkLut (cstr "u3")
       [cstr "m"; cstr "n"; cstr "o"; cstr "p"; cstr "q"; cstr "r"] false]
  /\ lut_add_net_unique (mkLut (cstr "u") [cstr "a"] false) (cstr " a ")
     = mkLut (cstr "u") [cstr "a"] false
  /\ lut_add_net_unique (mkLut (cstr "u") [cstr "a"] false) (cstr " b[ 3] ")
     = mkLut (cstr "u") [cstr "a"; cstr "b[ 3]"] false.
Proof.
  destruct duplicate_free_trimmed_inputs as (H1 & _ & H3 & _ & H5).
  split; [|split].
  - apply (H1 scenario_text). vm_compute. reflexivity.
  - apply (H3 (mkLut (cstr "u") [cstr "a"] false) (cstr " a ")).
    right. vm_compute. apply list_elem_of_here.
  - apply (H5 (mkLut (cstr "u") [cstr "a"] false) (cstr " b[ 3] ")).
    + repeat constructor. intros H%list_elem_of_singleton. discriminate.
    + vm_compute. discriminate.
    + vm_compute. intros H%list_elem_of_singleton. discriminate.
Defined.

(** ** The union count *)

Lemma existsb_strcmp_eq (y : cstring) (a : list cstring) :
  existsb (fun x => strcmp_eq x y) a = true <-> y ∈ a.
Proof.
  rewrite existsb_exists. split.
  - intros (x & Hx & ->%strcmp_eq_iff). by apply list_elem_of_In.
  - intros Hy. exists y. split; [by apply list_elem_of_In|].
    by apply strcmp_eq_iff.
Qed.

(** The early exit does not change the answer. *)
Lemma union_count_from_spec (a b : list cstring) (count : nat) :
  union_count_from a b count
  = (count + length (filter (fun y => y ∉ a) b) <=? 6).
Proof.
  revert count; induction b as [|y b IH]; intros count; simpl.
  - by rewrite Nat.add_0_r.
  - destruct (existsb _ a) eqn:Hex.
    + apply existsb_strcmp_eq in Hex.
      rewrite filter_cons_False by (intros H; by apply H). apply IH.
    + assert (Hy : y ∉ a).
      { intros Hy%existsb_strcmp_eq. congruence. }
      rewrite filter_cons_True by done. simpl.
      destruct (Nat.ltb_spec 6 (S count)) as [Hgt|Hle].
      * symmetry. apply Nat.leb_gt. lia.
      * rewrite IH. f_equal. lia.
Qed.

Lemma union_length (a b : list cstring) :
  NoDup a -> NoDup b ->
  length (remove_dups (a ++ b)) = length a + length (filter (fun y => y ∉ a) b).
Proof.
  intros Ha Hb. rewrite <- length_app. apply Permutation_length.
  apply NoDup_Permutation.
  - apply NoDup_remove_dups.
  - apply NoDup_app. split; [done|]. split; [|by apply NoDup_filter].
    intros x Hx [Hnx _]%list_elem_of_filter. done.
  - intros x. rewrite elem_of_remove_dups, !elem_of_app, list_elem_of_filter.
    destruct (decide (x ∈ a)); tauto.
Qed.

Lemma union_unique_count_le6_iff (a b : Lut) :
  NoDup (nets a) -> NoDup (nets b) ->
  union_unique_count_le6 a b = true <-> union_size a b <= 6.
Proof.
  intros Ha Hb. unfold union_unique_count_le6, union_size.
  rewrite union_count_from_spec, union_length by done.
  apply Nat.leb_le.
Qed.

(** ** The inner loop of the pairing *)

Lemma find_best_spec (a : Lut) (j0 : nat) (cands : list Lut) :
  match find_best a j0 cands with
  | Some best =>
      j0 <= best
      /\ (exists b, cands !! (best - j0) = Some b /\ used b = false
                    /\ union_unique_count_le6 a b = true)
      /\ (forall k c, k < best - j0 -> cands !! k = Some c ->
                      used c = true \/ union_unique_count_le6 a c = false)
  | None =>
      forall k c, cands !! k = Some c ->
                  used c = true \/ union_unique_count_le6 a c = false
  end.
Proof.
  revert j0; induction cands as [|b cands IH]; intros j0; simpl.
  - intros k c H. by rewrite lookup_nil in H.
  - assert (Hskip : used b = true \/ union_unique_count_le6 a b = false ->
        match find_best a (S j0) cands with
        | Some best =>
            j0 <= best
            /\ (exists b0, (b :: cands) !! (best - j0) = Some b0
                  /\ used b0 = false /\ union_unique_count_le6 a b0 = true)
            /\ (forall k c, k < best - j0 -> (b :: cands) !! k = Some c ->
                  used c = true \/ union_unique_count_le6 a c = false)
        | None =>
            forall k c, (b :: cands) !! k = Some c ->
                  used c = true \/ union_unique_count_le6 a c = false
        end).
    { intros Hb. specialize (IH (S j0)).
      destruct (find_best a (S j0) cands) as [best|].
      - destruct IH as (Hle & (b0 & Hb0 & Hu & Hok) & Hmin).
        replace (best - j0) with (S (best - S j0)) by lia.
        split; [lia|]. split; [by exists b0|].
        intros [|k] c Hk Hc; simpl in Hc; [by injection Hc as <-|].
        apply (Hmin k c); [lia | done].
      - intros [|k] c Hc; simpl in Hc; [by injection Hc as <-|]. eauto. }
    destruct (used b) eqn:Hu; [by apply Hskip; left|].
    destruct (union_unique_count_le6 a b) eqn:Hok; [|by apply Hskip; right].
    rewrite Nat.sub_diag. split; [lia|]. split; [by exists b|].
    intros k c Hk. lia.
Qed.

(** What [find_best] returns, read on the instance array. *)
Lemma find_best_first (st : pstate) (a : Lut) (i : nat) :
  match find_best a (S i) (drop (S i) st.1) with
  | Some best =>
      i < best /\ eligible st a best
      /\ forall k, i < k < best -> ~ eligible st a k
  | None => forall k, i < k -> ~ eligible st a k
  end.
Proof.
  pose proof (find_best_spec a (S i) (drop (S i) st.1)) as H.
  destruct (find_best a (S i) (drop (S i) st.1)) as [best|].
  - destruct H as (Hle & (b & Hb & Hu & Hok) & Hmin).
    rewrite lookup_drop in Hb.
    replace (S i + (best - S i)) with best in Hb by lia.
    split; [lia|]. split; [by exists b|].
    intros k Hk (c & Hc & Huc & Hokc).
    destruct (Hmin (k - S i) c) as [?|?]; [lia| |congruence|congruence].
    rewrite lookup_drop. by replace (S i + (k - S i)) with k by lia.
  - intros k Hk (c & Hc & Huc & Hokc).
    destruct (H (k - S i) c) as [?|?]; [|congruence|congruence].
    rewrite lookup_drop. by replace (S i + (k - S i)) with k by lia.
Qed.

Lemma state_before_S (luts0 : list Lut) (i : nat) :
  state_before luts0 (S i) = pair_body (state_before luts0 i) i.
Proof. unfold state_before. by rewrite seq_S, foldl_app. Qed.

(** One trip through the outer loop of the pairing. *)
Lemma pair_body_cases (st : pstate) (i : nat) :
  (pair_body st i = st
   /\ forall a, st.1 !! i = Some a -> used a = false ->
                forall k, i < k -> ~ eligible st a k)
  \/ (exists a best,
         st.1 !! i = Some a /\ used a = false
         /\ i < best /\ eligible st a best
         /\ (forall k, i < k < best -> ~ eligible st a k)
         /\ pair_body st i
            = (alter set_used best (alter set_used i st.1),
               st.2 ++ [(i, best)])).
Proof.
  unfold pair_body. destruct (st.1 !! i) as [a|] eqn:Ha.
  2:{ left. split; [done|]. intros ? [=]. }
  destruct (used a) eqn:Hu.
  { left. split; [done|]. intros ? [= <-]. congruence. }
  pose proof (find_best_first st a i) as Hfb.
  destruct (find_best a (S i) (drop (S i) st.1)) as [best|].
  - right. exists a, best. destruct Hfb as (? & ? & ?). by repeat split.
  - left. split; [done|]. by intros ? [= <-] _.
Qed.

(** ** The invariant of the pairing loop *)

Lemma pair_members_snoc (ps : list (nat * nat)) (a b : nat) :
  pair_members (ps ++ [(a, b)]) = pair_members ps ++ [a; b].
Proof. unfold pair_members. by rewrite flat_map_app. Qed.

Lemma elem_of_pair_members (ps : list (nat * nat)) (k : nat) :
  k ∈ pair_members ps <-> exists a b, (a, b) ∈ ps /\ (k = a \/ k = b).
Proof.
  unfold pair_members. rewrite list_elem_of_In, in_flat_map. split.
  - intros ([a b] & Hin%list_elem_of_In & Hk). exists a, b. split; [done|].
    simpl in Hk. destruct Hk as [<-|[<-|[]]]; auto.
  - intros (a & b & Hin%list_elem_of_In & Hk). exists (a, b). split; [done|].
    simpl. destruct Hk as [->| ->]; auto.
Qed.

Lemma lut_data_set_used (l : Lut) : lut_data (set_used l) = lut_data l.
Proof. done. Qed.

Lemma fmap_lut_data_alter (luts : list Lut) (k : nat) :
  lut_data <$> alter set_used k luts = lut_data <$> luts.
Proof.
  revert k; induction luts as [|l luts IH]; intros [|k]; simpl; [done..|].
  f_equal. apply IH.
Qed.

Lemma lookup_lut_data (luts luts0 : list Lut) (k : nat) (l : Lut) :
  lut_data <$> luts = lut_data <$> luts0 -> luts !! k = Some l ->
  exists l0, luts0 !! k = Some l0 /\ nets l0 = nets l /\ inst l0 = inst l.
Proof.
  intros Hd Hl. apply (f_equal (fun x => x !! k)) in Hd.
  rewrite !list_lookup_fmap, Hl in Hd. simpl in Hd.
  destruct (luts0 !! k) as [l0|]; [|done]. injection Hd as Hi Hn.
  by exists l0.
Qed.

Lemma union_unique_count_le6_nets (a a' b b' : Lut) :
  nets a = nets a' -> nets b = nets b' ->
  union_unique_count_le6 a b = union_unique_count_le6 a' b'.
Proof. unfold union_unique_count_le6. by intros -> ->. Qed.

Lemma lookup_alter_set_used (luts : list Lut) (j k : nat) (l : Lut) :
  luts !! k = Some l ->
  exists l', alter set_used j luts !! k = Some l'
             /\ (used l = true -> used l' = true)
             /\ (j = k -> used l' = true).
Proof.
  intros Hl. destruct (decide (j = k)) as [->|Hne].
  - exists (set_used l). by rewrite list_lookup_alter_eq, Hl.
  - exists l. by rewrite list_lookup_alter_ne.
Qed.

Lemma pairing_inv_init (luts0 : list Lut) : pairing_inv luts0 0 (luts0, []).
Proof.
  split; simpl.
  - done.
  - intros k Hk. by apply elem_of_nil in Hk.
  - intros a b Hab. by apply elem_of_nil in Hab.
  - constructor.
  - constructor.
  - intros a b Hab. by apply elem_of_nil in Hab.
Qed.

Lemma pairing_inv_step (luts0 : list Lut) (i : nat) (st : pstate) :
  pairing_inv luts0 i st -> pairing_inv luts0 (S i) (pair_body st i).
Proof.
  intros [Hdata Hused Hrange Hnodup Hsorted Hunion].
  destruct (pair_body_cases st i)
    as [[-> _]|(a & best & Ha & Hu & Hlt & (b & Hb & Hub & Hok) & _ & ->)].
  { split; try done. intros x y Hxy. destruct (Hrange x y Hxy). lia. }
  split; simpl.
  - by rewrite !fmap_lut_data_alter.
  - intros k. rewrite pair_members_snoc, elem_of_app. intros [Hk|Hk].
    + destruct (Hused k Hk) as (l & Hl & Hlu).
      destruct (lookup_alter_set_used st.1 i k l Hl) as (l1 & Hl1 & Hkeep1 & _).
      destruct (lookup_alter_set_used _ best k l1 Hl1) as (l2 & Hl2 & Hkeep2 & _).
      exists l2. auto.
    + destruct (lookup_alter_set_used st.1 i i a Ha) as (a1 & Ha1 & _ & Hset1).
      apply elem_of_cons in Hk as [->|Hk].
      * destruct (lookup_alter_set_used _ best i a1 Ha1) as (a2 & Ha2 & Hkeep & _).
        exists a2. auto.
      * apply list_elem_of_singleton in Hk as ->.
        destruct (lookup_alter_set_used st.1 i best b Hb) as (b1 & Hb1 & _).
        destruct (lookup_alter_set_used _ best best b1 Hb1) as (b2 & Hb2 & _ & Hset).
        exists b2. auto.
  - intros x y [Hxy|Hxy]%elem_of_app.
    + destruct (Hrange x y Hxy). lia.
    + apply list_elem_of_singleton in Hxy. injection Hxy as -> ->. lia.
  - rewrite pair_members_snoc. apply NoDup_app. split; [done|]. split.
    + intros k Hk Hk'. destruct (Hused k Hk) as (l & Hl & Hlu).
      apply elem_of_cons in Hk' as [->|Hk'].
      * congruence.
      * apply list_elem_of_singleton in Hk' as ->. congruence.
    + apply NoDup_cons. split; [|apply NoDup_singleton].
      intros ->%list_elem_of_singleton. lia.
  - rewrite fmap_app. apply StronglySorted_app. split; [|split].
    + intros x y ([x' z] & -> & Hx)%list_elem_of_fmap ->%list_elem_of_singleton.
      by destruct (Hrange x' z Hx).
    + done.
    + repeat constructor.
  - intros x y [Hxy|Hxy]%elem_of_app; [by apply Hunion|].
    apply list_elem_of_singleton in Hxy. injection Hxy as -> ->.
    destruct (lookup_lut_data _ _ _ _ Hdata Ha) as (a0 & Ha0 & Hna & _).
    destruct (lookup_lut_data _ _ _ _ Hdata Hb) as (b0 & Hb0 & Hnb & _).
    exists a0, b0. split; [done|]. split; [done|].
    by rewrite (union_unique_count_le6_nets a0 a b0 b).
Qed.

Lemma pairing_inv_state_before (luts0 : list Lut) (i : nat) :
  pairing_inv luts0 i (state_before luts0 i).
Proof.
  induction i as [|i IH]; [apply pairing_inv_init|].
  rewrite state_before_S. by apply pairing_inv_step.
Qed.

(** Pairs emitted from index [i] on only involve instances from [i] on. *)
Lemma pair_members_later (luts0 : list Lut) (i m : nat) (k : nat) :
  i <= m -> k ∈ pair_members (state_before luts0 m).2 ->
  k ∈ pair_members (state_before luts0 i).2 \/ i <= k.
Proof.
  induction 1 as [|m Hle IH]; [by left|].
  rewrite state_before_S.
  destruct (pair_body_cases (state_before luts0 m) m)
    as [[-> _]|(a & best & _ & _ & Hlt & _ & _ & ->)]; [done|].
  simpl. rewrite pair_members_snoc, elem_of_app. intros [Hk|Hk]; [auto|].
  right. apply elem_of_cons in Hk as [->|Hk]; [done|].
  apply list_elem_of_singleton in Hk as ->. lia.
Qed.

Lemma greedy_pairing_state_before (luts0 : list Lut) :
  greedy_pairing luts0 = state_before luts0 (length luts0).
Proof. done. Qed.

(** Pairs, once emitted, stay. *)
Lemma pairs_prefix (luts0 : list Lut) (i m : nat) :
  i <= m ->
  exists rest, (state_before luts0 m).2 = (state_before luts0 i).2 ++ rest.
Proof.
  induction 1 as [|m Hle [rest IH]]; [exists []; by rewrite app_nil_r|].
  rewrite state_before_S.
  destruct (pair_body_cases (state_before luts0 m) m)
    as [[-> _]|(a & best & _ & _ & _ & _ & _ & ->)]; [by exists rest|].
  simpl. exists (rest ++ [(m, best)]). by rewrite IH, app_assoc.
Qed.

Lemma state_before_length (luts0 : list Lut) (i : nat) :
  length (state_before luts0 i).1 = length luts0.
Proof.
  pose proof (inv_data _ _ _ (pairing_inv_state_before luts0 i)) as H.
  apply (f_equal length) in H. by rewrite !length_fmap in H.
Qed.

(** ** First-fit pairing *)

(** C2. When the outer loop reaches an instance [i] that is already consumed
    it passes on.  When [i] is not yet consumed and [j] is the first
    not-yet-consumed instance behind [i] for which the union count holds, both
    are marked and the pair (i,j) is appended, and it is in the final result.
    When there is no such [j], nothing changes and [i] is in no pair of the
    final result.  The first elements of the emitted pairs are in strictly
    increasing discovery order. *)
Theorem first_fit_greedy_pairing (luts0 : list Lut) (i : nat) (a : Lut) :
  (state_before luts0 i).1 !! i = Some a ->
  let st := state_before luts0 i in
  let final := greedy_pairing luts0 in
  final = state_before luts0 (length luts0)
  /\ (used a = true -> state_before luts0 (S i) = st)
  /\ (used a = false ->
      forall j, i < j -> eligible st a j ->
                (forall k, i < k < j -> ~ eligible st a k) ->
                state_before luts0 (S i)
                = (alter set_used j (alter set_used i st.1), st.2 ++ [(i, j)])
                /\ (i, j) ∈ final.2)
  /\ (used a = false ->
      (forall j, i < j -> ~ eligible st a j) ->
      state_before luts0 (S i) = st /\ i ∉ pair_members final.2)
  /\ StronglySorted lt (final.2.*1).
Proof.
  intros Ha st final.
  assert (Hi : S i <= length luts0).
  { apply lookup_lt_Some in Ha. by rewrite state_before_length in Ha. }
  fold st in Ha.
  split; [done|]. split; [|split; [|split]].
  - intros Hu. rewrite state_before_S. fold st. unfold pair_body.
    by rewrite Ha, Hu.
  - intros Hu j Hij Hj Hfirst. rewrite state_before_S. fold st.
    destruct (pair_body_cases st i)
      as [[_ Hnone]|(a' & best & Ha' & _ & Hlt & Hbest & Hmin & Heq)].
    { destruct (Hnone a Ha Hu j Hij Hj). }
    assert (a' = a) as -> by congruence.
    assert (best = j) as ->.
    { destruct (Nat.lt_trichotomy best j) as [Hl|[?|Hl]]; [|done|].
      - destruct (Hfirst best ltac:(lia) Hbest).
      - destruct (Hmin j ltac:(lia) Hj). }
    split; [done|].
    destruct (pairs_prefix luts0 (S i) (length luts0) Hi) as [rest Hrest].
    unfold final. rewrite greedy_pairing_state_before, Hrest.
    rewrite state_before_S. fold st. rewrite Heq. simpl.
    apply elem_of_app. left. apply elem_of_app. right.
    apply list_elem_of_here.
  - intros Hu Hnone.
    assert (Hsame : state_before luts0 (S i) = st).
    { rewrite state_before_S. fold st.
      destruct (pair_body_cases st i)
        as [[? _]|(a' & best & Ha' & _ & Hlt & Hbest & _)]; [done|].
      assert (a' = a) as -> by congruence.
      destruct (Hnone best Hlt Hbest). }
    split; [done|]. intros Hin.
    apply (pair_members_later luts0 (S i)) in Hin as [Hin|?]; [|lia|done].
    rewrite Hsame in Hin.
    destruct (inv_used _ _ _ (pairing_inv_state_before luts0 i) i Hin)
      as (l & Hl & Hlu).
    fold st in Hl. congruence.
  - apply (inv_sorted _ _ _ (pairing_inv_state_before luts0 (length luts0))).
Qed.

Lemma first_fit_greedy_pairing_witness :
  (state_before scenario_luts 1
   = (alter set_used 1 (alter set_used 0 scenario_luts), [(0, 1)])
   /\ (0, 1) ∈ (greedy_pairing scenario_luts).2)
  /\ (state_before scenario_luts 3 = state_before scenario_luts 2
      /\ 2 ∉ pair_members (greedy_pairing scenario_luts).2).
Proof.
  split.
  - destruct (first_fit_greedy_pairing scenario_luts 0 scenario_u1 eq_refl)
      as (_ & _ & H & _).
    apply (H eq_refl 1).
    + lia.
    + exists scenario_u2. repeat split; reflexivity.
    + intros k Hk. lia.
  - destruct (first_fit_greedy_pairing scenario_luts 2 scenario_u3 eq_refl)
      as (_ & _ & _ & H & _).
    apply (H eq_refl). intros j Hj (b & Hb & _).
    do 3 (destruct j as [|j]; [lia|]). vm_compute in Hb. discriminate.
Defined.

(** ** Pair membership *)

(** C9. In the final state both members of every pair are marked consumed;
    no instance fills two slots of the pair sequence; and a trip through the
    outer loop either changes nothing or marks two different instances whose
    flags were both still clear, so no instance is marked twice. *)
Theorem pair_membership_invariant (luts0 : list Lut) :
  let final := greedy_pairing luts0 in
  (forall a b, (a, b) ∈ final.2 ->
     a < b
     /\ exists la lb, final.1 !! a = Some la /\ final.1 !! b = Some lb
                      /\ used la = true /\ used lb = true)
  /\ NoDup (pair_members final.2)
  /\ (forall i,
        let st := state_before luts0 i in
        state_before luts0 (S i) = st
        \/ exists j la lb,
             st.1 !! i = Some la /\ st.1 !! j = Some lb
             /\ used la = false /\ used lb = false /\ i < j
             /\ state_before luts0 (S i)
                = (alter set_used j (alter set_used i st.1),
                   st.2 ++ [(i, j)])).
Proof.
  intros final.
  pose proof (pairing_inv_state_before luts0 (length luts0)) as Hinv.
  rewrite <- greedy_pairing_state_before in Hinv. fold final in Hinv.
  split; [|split].
  - intros a b Hab. split; [by destruct (inv_range _ _ _ Hinv a b Hab)|].
    destruct (inv_used _ _ _ Hinv a) as (la & Hla & Hua).
    { apply elem_of_pair_members. eauto. }
    destruct (inv_used _ _ _ Hinv b) as (lb & Hlb & Hub).
    { apply elem_of_pair_members. eauto. }
    by exists la, lb.
  - apply (inv_nodup _ _ _ Hinv).
  - intros i st. rewrite state_before_S. fold st.
    destruct (pair_body_cases st i)
      as [[? _]|(a & best & Ha & Hu & Hlt & (b & Hb & Hub & _) & _ & Heq)];
      [by left|].
    right. by exists best, a, b.
Qed.

Lemma pair_membership_invariant_witness :
  0 < 1
  /\ exists la lb,
       (greedy_pairing scenario_luts).1 !! 0 = Some la
       /\ (greedy_pairing scenario_luts).1 !! 1 = Some lb
       /\ used la = true /\ used lb = true.
Proof.
  destruct (pair_membership_invariant scenario_luts) as (H & _).
  apply (H 0 1). vm_compute. apply list_elem_of_here.
Defined.

(** ** Union size of the pairs *)

(** C3. The short-circuiting count answers whether the number of nets of [a]
    plus the number of nets of [b] that are absent from [a] is at most 6; on
    instances with duplicate-free inputs, as extraction builds them, that is
    the number of distinct nets of the two instances together.  Every pair
    that the pairing of extracted instances emits has at most 6 distinct
    nets. *)
Theorem union_size_predicate :
  (forall a b : Lut,
      union_unique_count_le6 a b
      = (length (nets a) + length (filter (fun y => y ∉ nets a) (nets b)) <=? 6))
  /\ (forall a b : Lut,
         NoDup (nets a) -> NoDup (nets b) ->
         union_unique_count_le6 a b = true <-> union_size a b <= 6)
  /\ (forall (luts0 : list Lut) (i j : nat),
         Forall (fun l => NoDup (nets l)) luts0 ->
         (i, j) ∈ (greedy_pairing luts0).2 ->
         exists la lb, luts0 !! i = Some la /\ luts0 !! j = Some lb
                       /\ union_size la lb <= 6)
  /\ (forall (buf_in : list ascii) (luts : list Lut) (i j : nat),
         parse_luts_from_buffer buf_in = Done luts ->
         (i, j) ∈ (greedy_pairing luts).2 ->
         exists la lb, luts !! i = Some la /\ luts !! j = Some lb
                       /\ union_unique_count_le6 la lb = true
                       /\ union_size la lb <= 6).
Proof.
  assert (Hpairs : forall (luts0 : list Lut) (i j : nat),
             Forall (fun l => NoDup (nets l)) luts0 ->
             (i, j) ∈ (greedy_pairing luts0).2 ->
             exists la lb, luts0 !! i = Some la /\ luts0 !! j = Some lb
                           /\ union_unique_count_le6 la lb = true
                           /\ union_size la lb <= 6).
  { intros luts0 i j Hnd Hij.
    pose proof (pairing_inv_state_before luts0 (length luts0)) as Hinv.
    rewrite <- greedy_pairing_state_before in Hinv.
    destruct (inv_union _ _ _ Hinv i j Hij) as (la & lb & Hla & Hlb & Hok).
    exists la, lb. repeat split; try done.
    rewrite Forall_forall in Hnd.
    apply union_unique_count_le6_iff; [| |done]; apply Hnd;
      by eapply list_elem_of_lookup_2. }
  split; [|split; [|split]].
  - intros a b. apply union_count_from_spec.
  - exact union_unique_count_le6_iff.
  - intros luts0 i j Hnd Hij.
    destruct (Hpairs luts0 i j Hnd Hij) as (la & lb & ? & ? & _ & ?).
    by exists la, lb.
  - intros buf_in luts i j Hparse Hij. apply Hpairs; [|done].
    apply extracted_well_formed in Hparse.
    eapply Forall_impl; [exact Hparse|]. by intros l (? & _).
Qed.

Lemma union_size_predicate_witness :
  (union_unique_count_le6 scenario_u1 scenario_u2 = true
   <-> union_size scenario_u1 scenario_u2 <= 6)
  /\ exists la lb,
       scenario_luts !! 0 = Some la /\ scenario_luts !! 1 = Some lb
       /\ union_unique_count_le6 la lb = true /\ union_size la lb <= 6.
Proof.
  destruct union_size_predicate as (_ & H2 & _ & H4).
  split.
  - apply H2; vm_compute; repeat constructor;
      rewrite ?elem_of_cons, ?elem_of_nil; intros H;
      repeat (destruct H as [H|H]; try discriminate H); done.
  - apply (H4 scenario_text scenario_luts 0 1).
    + vm_compute. reflexivity.
    + vm_compute. apply list_elem_of_here.
Defined.

(** * Further properties of the code *)

(** ** Comment stripping *)

Lemma cstring_ind2 (P : cstring -> Prop) :
  P [] -> (forall c, P [c]) ->
  (forall c d s, P s -> P (d :: s) -> P (c :: d :: s)) ->
  forall s, P s.
Proof.
  intros H0 H1 H2 s. assert (P s /\ forall c, P (c :: s)) as [? _]; [|done].
  induction s as [|d s [IH1 IH2]]; [by split|].
  split; [apply IH2|]. intros c. by apply H2.
Qed.

Lemma strip_line_from_cons (inside : bool) (c : ascii) (s : cstring) :
  strip_line_from inside (c :: s) =
  if inside then
    if Ascii.eqb c LF then c :: strip_line_from false s
    else SP :: strip_line_from true s
  else
    if Ascii.eqb c "/" && Ascii.eqb (char_at s 0) "/"
    then SP :: strip_line_from true s
    else c :: strip_line_from false s.
Proof. by destruct inside. Qed.

Lemma strip_block_blanks (s : cstring) (inside : bool) :
  Forall2 (fun o c => o = c \/ o = SP) (strip_block_from inside s) s.
Proof.
  revert inside. induction s as [|c|c d s IH1 IH2] using cstring_ind2;
    intros inside.
  - constructor.
  - destruct inside; simpl; (constructor; [auto | constructor]).
  - rewrite strip_block_from_cons.
    destruct inside; destruct (_ && _);
      repeat (constructor; [by auto|]); auto.
Qed.

Lemma strip_line_blanks (s : cstring) (inside : bool) :
  Forall2 (fun o c => o = c \/ (o = SP /\ c <> LF))
    (strip_line_from inside s) s.
Proof.
  revert inside. induction s as [|c s IH]; intros inside; [constructor|].
  rewrite strip_line_from_cons. destruct inside.
  - destruct (Ascii.eqb_spec c LF); constructor; auto.
  - destruct (Ascii.eqb_spec c "/") as [->|?]; simpl.
    + destruct (Ascii.eqb _ "/"); constructor; auto;
        try (right; split; [done | discriminate]).
    + constructor; auto.
Qed.

(** X1. Comment stripping keeps every position: both passes return a text of
    the same length in which each character is the original one or a blank,
    and the line-comment pass never blanks a line feed. *)
Theorem comment_stripping_keeps_positions (s : cstring) :
  Forall2 (fun o c => o = c \/ o = SP) (strip_block_comments s) s
  /\ Forall2 (fun o c => o = c \/ (o = SP /\ c <> LF))
       (strip_line_comments s) s
  /\ length (strip_block_comments s) = length s
  /\ length (strip_line_comments s) = length s
  /\ length (stripped s) <= length s.
Proof.
  pose proof (strip_block_blanks s false) as Hb.
  pose proof (strip_line_blanks s false) as Hl.
  split; [done|]. split; [done|].
  split; [by apply Forall2_length in Hb|].
  split; [by apply Forall2_length in Hl|].
  unfold stripped.
  pose proof (strip_line_blanks (strip_block_comments (xstrdup s)) false) as H1.
  pose proof (strip_block_blanks (xstrdup s) false) as H2.
  apply Forall2_length in H1, H2.
  unfold strip_line_comments, strip_block_comments in *. rewrite H1, H2.
  clear. induction s as [|c s IH]; simpl; [lia|].
  destruct (Ascii.eqb c NUL); simpl; lia.
Qed.

(** *** No comment opener is left *)

Lemma has_pair_cons (a b c : ascii) (s : cstring) :
  has_pair a b (c :: s)
  = (Ascii.eqb c a && Ascii.eqb (char_at s 0) b) || has_pair a b s.
Proof. done. Qed.

Lemma has_pair_blanked (a b : ascii) (out s : cstring) :
  a <> SP -> b <> SP -> b <> NUL ->
  Forall2 (fun o c => o = c \/ o = SP) out s ->
  has_pair a b s = false -> has_pair a b out = false.
Proof.
  intros Ha Hb Hb0 H. induction H as [|o c out s Hoc H IH]; [done|].
  rewrite !has_pair_cons. intros [H1 H2]%orb_false_iff.
  rewrite (IH H2), orb_false_r.
  destruct (Ascii.eqb_spec o a) as [->|?]; [|done]. simpl.
  destruct Hoc as [<-|?]; [|done]. rewrite Ascii.eqb_refl in H1. simpl in H1.
  destruct H as [|o' c' out' s' Hoc' _]; [done|].
  unfold char_at in *. simpl in *.
  destruct (Ascii.eqb_spec o' b) as [->|?]; [|done].
  destruct Hoc' as [<-|?]; [|done]. by rewrite Ascii.eqb_refl in H1.
Qed.

Lemma Forall2_blanks_weaken (out s : cstring) :
  Forall2 (fun o c => o = c \/ (o = SP /\ c <> LF)) out s ->
  Forall2 (fun o c => o = c \/ o = SP) out s.
Proof.
  intros H. eapply Forall2_impl; [exact H|]. intros o c [?|[? _]]; auto.
Qed.

Lemma strip_block_head (inside : bool) (d : ascii) (s : cstring) :
  char_at (strip_block_from inside (d :: s)) 0 = d
  \/ char_at (strip_block_from inside (d :: s)) 0 = SP.
Proof.
  pose proof (strip_block_blanks (d :: s) inside) as H.
  destruct (strip_block_from inside (d :: s)) as [|o out];
    inversion H as [|? ? ? ? Hoc _]; subst. done.
Qed.

Lemma has_pair_SP (a b : ascii) (s : cstring) :
  a <> SP -> has_pair a b (SP :: s) = has_pair a b s.
Proof.
  intros Ha. rewrite has_pair_cons. by destruct (Ascii.eqb_spec SP a).
Qed.

Lemma strip_block_no_opener (s : cstring) (inside : bool) :
  has_pair "/" "*" (strip_block_from inside s) = false.
Proof.
  revert inside. induction s as [|c|c d s IH1 IH2] using cstring_ind2;
    intros inside.
  - done.
  - destruct inside; [done|]. cbn [strip_block_from].
    rewrite has_pair_cons. unfold char_at. cbn [nth has_pair].
    by rewrite andb_false_r.
  - rewrite strip_block_from_cons. destruct inside.
    + destruct (_ && _); rewrite !has_pair_SP by done; auto.
    + destruct (Ascii.eqb c "/" && Ascii.eqb d "*") eqn:Hcd.
      * rewrite !has_pair_SP by done. auto.
      * rewrite has_pair_cons, IH2, orb_false_r.
        destruct (Ascii.eqb_spec c "/") as [->|?]; [|done].
        cbn [andb] in *.
        destruct (strip_block_head false d s) as [-> | ->]; done.
Qed.

Lemma strip_line_head (inside : bool) (d : ascii) (s : cstring) :
  char_at (strip_line_from inside (d :: s)) 0 = d
  \/ char_at (strip_line_from inside (d :: s)) 0 = SP.
Proof.
  pose proof (strip_line_blanks (d :: s) inside) as H.
  destruct (strip_line_from inside (d :: s)) as [|o out];
    inversion H as [|? ? ? ? Hoc _]; subst.
  destruct Hoc as [?|[? _]]; auto.
Qed.

Lemma strip_line_no_opener (s : cstring) (inside : bool) :
  has_pair "/" "/" (strip_line_from inside s) = false.
Proof.
  revert inside. induction s as [|c s IH]; intros inside; [done|].
  rewrite strip_line_from_cons. destruct inside.
  - destruct (Ascii.eqb_spec c LF) as [->|?].
    + rewrite has_pair_cons, IH. done.
    + rewrite has_pair_SP by done. apply IH.
  - destruct (Ascii.eqb c "/" && Ascii.eqb (char_at s 0) "/") eqn:Hcd.
    + rewrite has_pair_SP by done. apply IH.
    + rewrite has_pair_cons, IH, orb_false_r.
      destruct (Ascii.eqb_spec c "/") as [->|?]; [|done]. cbn [andb] in *.
      destruct s as [|d s]; [done|].
      destruct (strip_line_head false d s) as [-> | ->]; done.
Qed.

(** X2. No comment opener survives: the buffer that is scanned contains
    neither a slash followed by a star nor two slashes in a row. *)
Theorem stripped_has_no_comment_opener (buf_in : list ascii) :
  has_pair "/" "*" (stripped buf_in) = false
  /\ has_pair "/" "/" (stripped buf_in) = false.
Proof.
  unfold stripped. split.
  - eapply has_pair_blanked; [done..| |apply strip_block_no_opener].
    apply Forall2_blanks_weaken, strip_line_blanks.
  - apply strip_line_no_opener.
Qed.

(** *** Text without comments, and the shape of a stripped comment *)

Lemma strip_block_id (s : cstring) :
  has_pair "/" "*" s = false -> strip_block_from false s = s.
Proof.
  induction s as [|c|c d s IH1 IH2] using cstring_ind2; [done..|].
  rewrite has_pair_cons. intros [H1 H2]%orb_false_iff.
  rewrite strip_block_from_cons. unfold char_at in H1. cbn [nth] in H1.
  rewrite H1. f_equal. by apply IH2.
Qed.

Lemma strip_line_id (s : cstring) :
  has_pair "/" "/" s = false -> strip_line_from false s = s.
Proof.
  induction s as [|c s IH]; [done|].
  rewrite has_pair_cons. intros [H1 H2]%orb_false_iff.
  rewrite strip_line_from_cons, H1. f_equal. by apply IH.
Qed.

(** X3. A text without comment openers is left as it is by the two passes,
    and stripping a second time changes nothing. *)
Theorem comment_free_text_unchanged (s : cstring) :
  (has_pair "/" "*" s = false -> strip_block_comments s = s)
  /\ (has_pair "/" "/" s = false -> strip_line_comments s = s)
  /\ strip_block_comments (strip_block_comments s) = strip_block_comments s
  /\ strip_line_comments (strip_line_comments s) = strip_line_comments s.
Proof.
  split; [apply strip_block_id|]. split; [apply strip_line_id|].
  split.
  - apply strip_block_id, strip_block_no_opener.
  - apply strip_line_id, strip_line_no_opener.
Qed.

Lemma comment_free_text_unchanged_witness :
  strip_block_comments (cstr "a / b * c // d") = cstr "a / b * c // d"
  /\ strip_line_comments (cstr "a / b /* c */ d") = cstr "a / b /* c */ d".
Proof.
  split.
  - destruct (comment_free_text_unchanged (cstr "a / b * c // d"))
      as (H & _).
    apply H. reflexivity.
  - destruct (comment_free_text_unchanged (cstr "a / b /* c */ d"))
      as (_ & H & _).
    apply H. reflexivity.
Defined.

Lemma strip_block_outside_prefix (pre rest : cstring) :
  has_pair "/" "*" pre = false ->
  strip_block_from false (pre ++ "/" :: "*" :: rest)
  = pre ++ SP :: SP :: strip_block_from true rest.
Proof.
  induction pre as [|c|c d pre IH1 IH2] using cstring_ind2.
  - done.
  - intros _. cbn [app]. rewrite strip_block_from_cons.
    rewrite andb_false_r. f_equal.
  - rewrite has_pair_cons. intros [H1 H2]%orb_false_iff.
    cbn [app]. rewrite strip_block_from_cons.
    unfold char_at in H1. cbn [nth] in H1. rewrite H1. f_equal.
    by apply IH2.
Qed.

Lemma strip_block_inside_body (body rest : cstring) :
  has_pair "*" "/" body = false ->
  strip_block_from true (body ++ "*" :: "/" :: rest)
  = blanks (length body) ++ SP :: SP :: strip_block_from false rest.
Proof.
  induction body as [|c|c d body IH1 IH2] using cstring_ind2.
  - done.
  - intros _. cbn [app]. rewrite strip_block_from_cons.
    rewrite andb_false_r. f_equal.
  - rewrite has_pair_cons. intros [H1 H2]%orb_false_iff.
    cbn [app]. rewrite strip_block_from_cons.
    unfold char_at in H1. cbn [nth] in H1. rewrite H1.
    change (blanks (length (c :: d :: body))) with (SP :: blanks (length (d :: body))).
    cbn [app]. f_equal. by apply IH2.
Qed.

Lemma strip_block_inside_open (body : cstring) :
  has_pair "*" "/" body = false ->
  strip_block_from true body = blanks (length body).
Proof.
  induction body as [|c|c d body IH1 IH2] using cstring_ind2; [done..|].
  rewrite has_pair_cons. intros [H1 H2]%orb_false_iff.
  rewrite strip_block_from_cons.
  unfold char_at in H1. cbn [nth] in H1. rewrite H1.
  change (blanks (length (c :: d :: body))) with (SP :: blanks (length (d :: body))).
  f_equal. by apply IH2.
Qed.

Lemma blanks_around (n : nat) (rest : cstring) :
  SP :: SP :: blanks n ++ SP :: SP :: rest = blanks (n + 4) ++ rest.
Proof.
  replace (n + 4) with (2 + (n + 2)) by lia. unfold blanks.
  rewrite (replicate_add 2), (replicate_add n). simpl.
  by rewrite <- (assoc_L (++)).
Qed.

(** X4. A block comment is overwritten by blanks, delimiters included, and
    the text before and behind it is stripped on its own: for a text before
    the comment that holds no opener and a body that holds no closer, the
    result is the text before, as many blanks as the comment is long, and
    the stripped rest.  A block comment that is never closed is blanked up
    to the end of the input. *)
Theorem block_comment_blanked (pre body rest : cstring) :
  has_pair "/" "*" pre = false ->
  has_pair "*" "/" body = false ->
  strip_block_comments (pre ++ cstr "/*" ++ body ++ cstr "*/" ++ rest)
  = pre ++ blanks (length body + 4) ++ strip_block_comments rest
  /\ strip_block_comments (pre ++ cstr "/*" ++ body)
     = pre ++ blanks (length body + 2).
Proof.
  intros Hpre Hbody. unfold strip_block_comments. split.
  - change (pre ++ cstr "/*" ++ body ++ cstr "*/" ++ rest)
      with (pre ++ "/" :: "*" :: (body ++ "*" :: "/" :: rest)).
    rewrite strip_block_outside_prefix, strip_block_inside_body by done.
    f_equal. apply blanks_around.
  - change (pre ++ cstr "/*" ++ body) with (pre ++ "/" :: "*" :: body).
    rewrite strip_block_outside_prefix, strip_block_inside_open by done.
    f_equal. replace (length body + 2) with (2 + length body) by lia.
    done.
Qed.

Lemma block_comment_blanked_witness :
  strip_block_comments (cstr "a/ /* x * / y */ b")
  = cstr "a/ " ++ blanks 13 ++ cstr " b"
  /\ strip_block_comments (cstr "a/ /* x * / y ") = cstr "a/ " ++ blanks 11.
Proof.
  apply (block_comment_blanked (cstr "a/ ") (cstr " x * / y ") (cstr " b"));
    reflexivity.
Defined.

Lemma strip_line_outside_prefix (pre rest : cstring) :
  has_pair "/" "/" (pre ++ ["/"]) = false ->
  strip_line_from false (pre ++ "/" :: "/" :: rest)
  = pre ++ SP :: strip_line_from true ("/" :: rest).
Proof.
  induction pre as [|c pre IH]; [done|].
  cbn [app]. rewrite has_pair_cons. intros [H1 H2]%orb_false_iff.
  rewrite strip_line_from_cons.
  replace (char_at (pre ++ "/" :: "/" :: rest) 0)
    with (char_at (pre ++ ["/"]) 0) by (by destruct pre).
  rewrite H1. f_equal. by apply IH.
Qed.

Lemma strip_line_inside_body (body rest : cstring) :
  LF ∉ body ->
  strip_line_from true (body ++ LF :: rest)
  = blanks (length body) ++ LF :: strip_line_from false rest.
Proof.
  induction body as [|c body IH]; [done|].
  intros [Hc Hbody]%not_elem_of_cons. cbn [app].
  rewrite strip_line_from_cons.
  destruct (Ascii.eqb_spec c LF) as [->|_]; [done|].
  change (blanks (length (c :: body))) with (SP :: blanks (length body)).
  cbn [app]. f_equal. by apply IH.
Qed.

Lemma strip_line_inside_open (body : cstring) :
  LF ∉ body -> strip_line_from true body = blanks (length body).
Proof.
  induction body as [|c body IH]; [done|].
  intros [Hc Hbody]%not_elem_of_cons. rewrite strip_line_from_cons.
  destruct (Ascii.eqb_spec c LF) as [->|_]; [done|].
  change (blanks (length (c :: body))) with (SP :: blanks (length body)).
  f_equal. by apply IH.
Qed.

(** X5. A line comment is overwritten by blanks from its two slashes up to,
    and not including, the next line feed, and the text behind the line feed
    is stripped on its own; without a line feed the comment is blanked up to
    the end of the input.  The text before the comment is required to hold
    no opener of its own and not to end in a slash. *)
Theorem line_comment_blanked (pre body rest : cstring) :
  has_pair "/" "/" (pre ++ ["/"]) = false ->
  LF ∉ body ->
  strip_line_comments (pre ++ cstr "//" ++ body ++ LF :: rest)
  = pre ++ blanks (length body + 2) ++ LF :: strip_line_comments rest
  /\ strip_line_comments (pre ++ cstr "//" ++ body)
     = pre ++ blanks (length body + 2).
Proof.
  intros Hpre Hbody. unfold strip_line_comments.
  assert (Hb : LF ∉ "/" :: body).
  { apply not_elem_of_cons. split; [discriminate | done]. }
  replace (length body + 2) with (S (length ("/" :: body))) by (simpl; lia).
  split.
  - change (pre ++ cstr "//" ++ body ++ LF :: rest)
      with (pre ++ "/" :: "/" :: (body ++ LF :: rest)).
    rewrite strip_line_outside_prefix by done.
    change ("/" :: body ++ LF :: rest) with (("/" :: body) ++ LF :: rest).
    by rewrite strip_line_inside_body.
  - change (pre ++ cstr "//" ++ body) with (pre ++ "/" :: "/" :: body).
    rewrite strip_line_outside_prefix by done.
    by rewrite strip_line_inside_open.
Qed.

Lemma line_comment_blanked_witness :
  strip_line_comments (cstr "wire w; // GTP_LUT6 fake" ++ LF :: cstr "x // y")
  = cstr "wire w; " ++ blanks 16 ++ LF :: cstr "x     "
  /\ strip_line_comments (cstr "wire w; // GTP_LUT6 fake")
     = cstr "wire w; " ++ blanks 16.
Proof.
  apply (line_comment_blanked (cstr "wire w; ") (cstr " GTP_LUT6 fake")
           (cstr "x // y")).
  - reflexivity.
  - intros H. repeat (apply elem_of_cons in H as [H|H]; [discriminate H|]).
    by apply elem_of_nil in H.
Defined.

(** ** Identifiers *)

Lemma is_ident_char_not_space (c : ascii) :
  is_ident_char c = true -> isspace c = false /\ c <> "\".
Proof.
  destruct c as [[] [] [] [] [] [] [] []]; vm_compute; intros H;
    (discriminate H || (split; [reflexivity | discriminate])).
Qed.

Lemma skip_spaces_app (ws p : cstring) :
  all_space ws -> skip_spaces (ws ++ p) = skip_spaces p.
Proof.
  induction 1 as [|c ws Hc _ IH]; [done|]. simpl. by rewrite Hc.
Qed.

Lemma scan_while_app (f : ascii -> bool) (tok rest : cstring) :
  Forall (fun c => f c = true) tok ->
  match rest with [] => True | c :: _ => f c = false end ->
  scan_while f (tok ++ rest) = (tok, rest).
Proof.
  intros Htok Hrest. induction Htok as [|c tok Hc _ IH].
  - destruct rest as [|c rest]; [done|]. simpl. by rewrite Hrest.
  - simpl. by rewrite Hc, IH.
Qed.

Lemma parse_identifier_plain (ws tok rest : cstring) :
  all_space ws -> plain_ident tok ->
  match rest with [] => True | c :: _ => is_ident_char c = false end ->
  parse_identifier (ws ++ tok ++ rest) = Some (tok, rest).
Proof.
  intros Hws [Hne Htok] Hrest. unfold parse_identifier.
  rewrite skip_spaces_app by done.
  destruct tok as [|c tok]; [done|]. cbn [app].
  pose proof Htok as Hall. apply Forall_cons in Htok as [Hc _].
  destruct (is_ident_char_not_space c Hc) as [Hsp Hbs].
  rewrite skip_spaces_fixed by done.
  destruct (Ascii.eqb_spec c "\"); [done|]. rewrite Hc.
  change (c :: tok ++ rest) with ((c :: tok) ++ rest).
  by rewrite (scan_while_app is_ident_char (c :: tok) rest).
Qed.

Lemma parse_identifier_escaped (ws body rest : cstring) :
  all_space ws -> Forall (fun c => isspace c = false) body ->
  match rest with [] => True | c :: _ => isspace c = true end ->
  parse_identifier (ws ++ "\" :: body ++ rest) = Some ("\" :: body, rest).
Proof.
  intros Hws Hbody Hrest. unfold parse_identifier.
  rewrite skip_spaces_app by done. rewrite skip_spaces_fixed by done.
  cbn [Ascii.eqb Bool.eqb andb].
  rewrite (scan_while_app (fun x => negb (isspace x)) body rest); [done| |].
  - eapply Forall_impl; [exact Hbody|]. by intros c ->.
  - destruct rest as [|c rest]; [done|]. by rewrite Hrest.
Qed.

Lemma parse_identifier_token (pp tok r : cstring) :
  parse_identifier pp = Some (tok, r) -> token tok.
Proof.
  unfold parse_identifier. intros H.
  destruct (skip_spaces pp) as [|c p'] eqn:Hsk; [discriminate|].
  apply skip_spaces_head in Hsk.
  destruct (Ascii.eqb c "\").
  - destruct (scan_while _ p') as [body r'] eqn:Hs. injection H as <- <-.
    apply scan_while_split in Hs as (_ & Hb & _).
    split; [done|]. constructor; [done|].
    eapply Forall_impl; [exact Hb|]. intros x Hx.
    by apply negb_true_iff in Hx.
  - destruct (is_ident_char c) eqn:Hc; [|discriminate].
    destruct (scan_while is_ident_char (c :: p')) as [tok' r'] eqn:Hs.
    injection H as <- <-.
    pose proof Hs as Hs'. simpl in Hs'. rewrite Hc in Hs'.
    destruct (scan_while is_ident_char p'); injection Hs' as <- <-.
    apply scan_while_split in Hs as (_ & Hb & _).
    split; [done|].
    eapply Forall_impl; [exact Hb|]. intros x Hx.
    by destruct (is_ident_char_not_space x Hx).
Qed.

(** X6. [parse_identifier] returns the maximal token and stops right behind
    it.  A non-empty run of identifier characters that is not continued by
    another identifier character is returned as it is; a backslash followed
    by characters that are no white space is returned, backslash included, up
    to the next white space or the end; leading white space is skipped in
    both cases and trailing white space is not consumed.  The call fails
    exactly when the first character behind the white space is neither a
    backslash nor an identifier character, or when there is none. *)
Theorem parse_identifier_maximal_token (ws rest : cstring) :
  all_space ws ->
  (forall tok, plain_ident tok ->
     match rest with [] => True | c :: _ => is_ident_char c = false end ->
     parse_identifier (ws ++ tok ++ rest) = Some (tok, rest))
  /\ (forall body, Forall (fun c => isspace c = false) body ->
        match rest with [] => True | c :: _ => isspace c = true end ->
        parse_identifier (ws ++ "\" :: body ++ rest)
        = Some ("\" :: body, rest))
  /\ (parse_identifier (ws ++ rest) = None <->
      match skip_spaces rest with
      | [] => True
      | c :: _ => c <> "\" /\ is_ident_char c = false
      end).
Proof.
  intros Hws. split; [|split].
  - intros tok. by apply parse_identifier_plain.
  - intros body. by apply parse_identifier_escaped.
  - unfold parse_identifier. rewrite skip_spaces_app by done.
    destruct (skip_spaces rest) as [|c p']; [done|].
    destruct (Ascii.eqb_spec c "\") as [->|Hc].
    + destruct (scan_while _ p'). split; [done | by intros [? _]].
    + destruct (is_ident_char c); split; try done. by intros [_ ?].
Qed.

Lemma parse_identifier_maximal_token_witness :
  parse_identifier (cstr "  u1 ( .I0(a) );") = Some (cstr "u1", cstr " ( .I0(a) );")
  /\ parse_identifier (cstr "  \my.inst ( .I0(a) );")
     = Some (cstr "\my.inst", cstr " ( .I0(a) );")
  /\ parse_identifier (cstr "  ( .I0(a) );") = None.
Proof.
  split; [|split].
  - destruct (parse_identifier_maximal_token (cstr "  ") (cstr " ( .I0(a) );"))
      as (H & _); [repeat constructor|].
    apply (H (cstr "u1")); [|reflexivity]. split; [done|repeat constructor].
  - destruct (parse_identifier_maximal_token (cstr "  ") (cstr " ( .I0(a) );"))
      as (_ & H & _); [repeat constructor|].
    apply (H (cstr "my.inst")); [repeat constructor|reflexivity].
  - destruct (parse_identifier_maximal_token (cstr "  ") (cstr "( .I0(a) );"))
      as (_ & _ & H); [repeat constructor|].
    apply H. split; [discriminate | reflexivity].
Defined.

(** ** What the extractor skips *)

Lemma isspace_plain (c : ascii) : isspace c = true -> c <> NUL /\ c <> "/".
Proof. intros H. split; intros ->; discriminate. Qed.

Lemma all_space_blanks (n : nat) : all_space (blanks n).
Proof. induction n as [|n IH]; [constructor|]. by constructor. Qed.

Lemma xstrdup_app (a b : list ascii) :
  nul_free a -> xstrdup (a ++ b) = a ++ xstrdup b.
Proof.
  induction a as [|c a IH]; [done|]. intros [Hc Ha]%nul_free_cons.
  simpl. destruct (Ascii.eqb_spec c NUL); [done|]. by rewrite IH.
Qed.

Lemma xstrdup_nul (a b : list ascii) : xstrdup (a ++ NUL :: b) = xstrdup a.
Proof.
  induction a as [|c a IH]; [done|]. simpl.
  destruct (Ascii.eqb c NUL); [done|]. by rewrite IH.
Qed.

Lemma strip_block_keep (pre s : cstring) :
  Forall (fun c => c <> "/") pre ->
  strip_block_from false (pre ++ s) = pre ++ strip_block_from false s.
Proof.
  induction 1 as [|c pre Hc _ IH]; [done|]. cbn [app]. rewrite <- IH.
  destruct (pre ++ s) as [|d r]; [done|]. rewrite strip_block_from_cons.
  by destruct (Ascii.eqb_spec c "/").
Qed.

Lemma strip_line_keep (pre s : cstring) :
  Forall (fun c => c <> "/") pre ->
  strip_line_from false (pre ++ s) = pre ++ strip_line_from false s.
Proof.
  induction 1 as [|c pre Hc _ IH]; [done|]. cbn [app]. rewrite <- IH.
  rewrite strip_line_from_cons. by destruct (Ascii.eqb_spec c "/").
Qed.

Lemma all_space_no_slash (ws : cstring) :
  all_space ws -> Forall (fun c => c <> "/") ws /\ nul_free ws.
Proof.
  induction 1 as [|c ws Hc _ [IH1 IH2]].
  - split; [constructor | apply not_elem_of_nil].
  - destruct (isspace_plain c Hc). split; [by constructor|].
    by apply nul_free_cons.
Qed.

Lemma parse_identifier_skip (c : ascii) (p : cstring) :
  isspace c = true -> parse_identifier (c :: p) = parse_identifier p.
Proof. intros H. unfold parse_identifier. simpl. by rewrite H. Qed.

Lemma scan_body_skip (c : ascii) (p : cstring) (luts : list Lut) :
  isspace c = true ->
  (parse_identifier p = None /\ scan_body (c :: p) luts = Done (p, luts))
  \/ (p <> [] /\ scan_body (c :: p) luts = scan_body p luts).
Proof.
  intros Hc. unfold scan_body. rewrite (parse_identifier_skip c p Hc).
  destruct (parse_identifier p) as [[cell p1]|] eqn:Hid; [right|left; done].
  split; [|done]. by intros ->.
Qed.

(** White space in front of the cursor does not change what the scan finds. *)
Lemma scan_loop_skip_space (ws p : cstring) (luts : list Lut) (fuel fuel' : nat) :
  all_space ws -> length (ws ++ p) < fuel -> length p < fuel' ->
  scan_loop fuel (ws ++ p) luts = scan_loop fuel' p luts.
Proof.
  intros Hws. revert fuel.
  induction Hws as [|c ws Hc _ IH]; intros fuel Hf Hf'.
  - by apply scan_loop_more_fuel.
  - destruct fuel as [|fuel]; [simpl in Hf; lia|]. cbn [app] in *.
    simpl in Hf.
    destruct (scan_body_skip c (ws ++ p) luts Hc) as [[_ Hb]|[Hne Hb]].
    + cbn [scan_loop]. rewrite Hb. apply IH; [lia | done].
    + transitivity (scan_loop (S fuel) (ws ++ p) luts).
      * cbn [scan_loop]. rewrite Hb. by destruct (ws ++ p).
      * apply IH; [lia | done].
Qed.

(** X7. White space in front of the text, a line comment in front of the
    text and a block comment in front of the text do not change the result
    of the extraction, whatever follows; in particular a commented-out
    instantiation yields no instance.  The line comment is required not to
    contain a slash followed by a star. *)
Theorem leading_space_and_comments_ignored (buf : list ascii) :
  (forall ws, all_space ws ->
     parse_luts_from_buffer (ws ++ buf) = parse_luts_from_buffer buf)
  /\ (forall body, nul_free body -> LF ∉ body ->
        has_pair "/" "*" ("/" :: body) = false ->
        parse_luts_from_buffer (cstr "//" ++ body ++ LF :: buf)
        = parse_luts_from_buffer buf)
  /\ (forall body, nul_free body -> has_pair "*" "/" body = false ->
        parse_luts_from_buffer (cstr "/*" ++ body ++ cstr "*/" ++ buf)
        = parse_luts_from_buffer buf).
Proof.
  assert (Hscan : forall ws z, all_space ws ->
            scan_loop (S (length (ws ++ z))) (ws ++ z) []
            = scan_loop (S (length z)) z []).
  { intros ws z Hws. apply scan_loop_skip_space; [done|lia|lia]. }
  unfold parse_luts_from_buffer, strip_line_comments, strip_block_comments.
  split; [|split].
  - intros ws Hws. destruct (all_space_no_slash ws Hws) as [Hsl Hnf].
    rewrite xstrdup_app, strip_block_keep, strip_line_keep by done.
    by apply Hscan.
  - intros body Hnf Hlf Hpair.
    replace (cstr "//" ++ body ++ LF :: buf)
      with (("/" :: "/" :: body ++ [LF]) ++ buf)
      by (simpl; by rewrite <- (assoc_L (++))).
    rewrite xstrdup_app.
    2:{ apply nul_free_cons. split; [discriminate|].
        apply nul_free_cons. split; [discriminate|].
        apply nul_free_app. split; [done|].
        apply nul_free_cons. split; [discriminate | apply not_elem_of_nil]. }
    set (z := xstrdup buf).
    assert (Hgen : forall pre, has_pair "/" "*" pre = false ->
              strip_block_from false (pre ++ LF :: z)
              = pre ++ LF :: strip_block_from false z).
    { induction pre as [|c|c d pre IH1 IH2] using cstring_ind2.
      - intros _. cbn [app]. destruct z as [|d z]; [done|].
        by rewrite strip_block_from_cons.
      - intros _. cbn [app]. rewrite strip_block_from_cons.
        rewrite andb_false_r. f_equal.
        destruct z as [|d z]; [done|]. by rewrite strip_block_from_cons.
      - rewrite has_pair_cons. intros [H1 H2]%orb_false_iff.
        cbn [app]. rewrite strip_block_from_cons.
        unfold char_at in H1. cbn [nth] in H1. rewrite H1. f_equal.
        by apply IH2. }
    replace (("/" :: "/" :: body ++ [LF]) ++ z)
      with (("/" :: "/" :: body) ++ LF :: z)
      by (simpl; by rewrite <- (assoc_L (++))).
    rewrite Hgen by done.
    change (("/" :: "/" :: body) ++ LF :: strip_block_from false z)
      with ([] ++ "/" :: "/" :: (body ++ LF :: strip_block_from false z)).
    rewrite strip_line_outside_prefix by done.
    change ("/" :: body ++ LF :: strip_block_from false z)
      with (("/" :: body) ++ LF :: strip_block_from false z).
    rewrite strip_line_inside_body.
    2:{ apply not_elem_of_cons. split; [discriminate | done]. }
    replace ([] ++ SP :: blanks (length ("/" :: body))
             ++ LF :: strip_line_from false (strip_block_from false z))
      with ((SP :: blanks (length ("/" :: body)) ++ [LF])
            ++ strip_line_from false (strip_block_from false z))
      by (simpl; by rewrite <- (assoc_L (++))).
    apply Hscan. constructor; [done|].
    apply Forall_app. split; [apply all_space_blanks | by constructor].
  - intros body Hnf Hpair.
    replace (cstr "/*" ++ body ++ cstr "*/" ++ buf)
      with (("/" :: "*" :: body ++ cstr "*/") ++ buf)
      by (simpl; by rewrite <- (assoc_L (++))).
    rewrite xstrdup_app.
    2:{ apply nul_free_cons. split; [discriminate|].
        apply nul_free_cons. split; [discriminate|].
        apply nul_free_app. split; [done|].
        apply nul_free_cons. split; [discriminate|].
        apply nul_free_cons. split; [discriminate | apply not_elem_of_nil]. }
    set (z := xstrdup buf).
    replace (("/" :: "*" :: body ++ cstr "*/") ++ z)
      with ([] ++ "/" :: "*" :: (body ++ "*" :: "/" :: z))
      by (simpl; by rewrite <- (assoc_L (++))).
    rewrite strip_block_outside_prefix, strip_block_inside_body by done.
    cbn [app]. rewrite blanks_around.
    destruct (all_space_no_slash _ (all_space_blanks (length body + 4)))
      as [Hsl _].
    rewrite strip_line_keep by done.
    apply Hscan, all_space_blanks.
Qed.

Ltac not_in_text :=
  let H := fresh "H" in
  intros H;
  repeat (apply elem_of_cons in H as [H|H]; [discriminate H|]);
  by apply elem_of_nil in H.

Lemma leading_space_and_comments_ignored_witness :
  parse_luts_from_buffer (cstr "  " ++ scenario_text)
  = parse_luts_from_buffer scenario_text
  /\ parse_luts_from_buffer
       (cstr "//" ++ cstr " GTP_LUT6 fake ( .I0(z) );" ++ LF :: scenario_text)
     = parse_luts_from_buffer scenario_text
  /\ parse_luts_from_buffer
       (cstr "/*" ++ cstr " GTP_LUT6 fake ( .I0(z) ); " ++ cstr "*/"
        ++ scenario_text)
     = parse_luts_from_buffer scenario_text.
Proof.
  destruct (leading_space_and_comments_ignored scenario_text)
    as (H1 & H2 & H3).
  split; [|split].
  - apply H1. repeat constructor.
  - apply H2; [not_in_text | not_in_text | reflexivity].
  - apply H3; [not_in_text | reflexivity].
Defined.

(** X8. The extractor works on the C string: whatever follows the first NUL
    character of the text is not looked at. *)
Theorem text_behind_nul_ignored (a b : list ascii) :
  parse_luts_from_buffer (a ++ NUL :: b) = parse_luts_from_buffer a.
Proof. unfold parse_luts_from_buffer. by rewrite xstrdup_nul. Qed.

(** ** Extraction of a printed netlist *)

Lemma isdigit_ident (c : ascii) : isdigit c = true -> is_ident_char c = true.
Proof. intros H. unfold is_ident_char, isalnum. by rewrite H, orb_true_r. Qed.

Lemma is_gtp_lut_cell_inv (cell : cstring) :
  is_gtp_lut_cell cell = true ->
  exists ds, cell = cstr "GTP_LUT" ++ ds /\ ds <> []
             /\ Forall (fun c => isdigit c = true) ds.
Proof.
  unfold is_gtp_lut_cell. intros H.
  destruct (strcmp_eq cell _); [discriminate|].
  destruct (strncmp_eq cell _ 7) eqn:Hp; [|discriminate]. simpl in H.
  apply (strncmp_prefix (cstr "GTP_LUT")) in Hp as [ds ->].
  change (drop 7 (cstr "GTP_LUT" ++ ds)) with ds in H.
  destruct (isdigit (char_at ds 0)) eqn:Hd; [|discriminate]. simpl in H.
  exists ds. split; [done|]. split; [by intros ->|].
  by apply forallb_isdigit.
Qed.

Lemma is_gtp_lut_cell_plain (cell : cstring) :
  is_gtp_lut_cell cell = true -> plain_ident cell.
Proof.
  intros (ds & -> & _ & Hds)%is_gtp_lut_cell_inv. split; [done|].
  apply Forall_app. split; [by repeat constructor|].
  eapply Forall_impl; [exact Hds|]. apply isdigit_ident.
Qed.

Lemma port_body_binding (ws port net rest : cstring) (depth : Z) (lut : Lut) :
  all_space ws -> plain_ident port -> ")" ∉ net ->
  port_body (ws ++ "." :: port ++ "(" :: net ++ ")" :: rest) depth lut
  = PContinue rest depth
      (if record_port port then lut_add_net_unique lut net else lut).
Proof.
  intros Hws Hport Hnet. unfold port_body.
  rewrite skip_spaces_app by done. rewrite skip_spaces_fixed by done.
  cbn [Ascii.eqb Bool.eqb andb negb].
  pose proof (parse_identifier_plain [] port ("(" :: net ++ ")" :: rest)
                ltac:(constructor) Hport ltac:(done)) as Hid.
  cbn [app] in Hid. rewrite Hid.
  rewrite skip_spaces_fixed by done. cbn [Ascii.eqb Bool.eqb andb].
  rewrite (scan_while_app (fun x => negb (Ascii.eqb x ")")) net (")" :: rest)).
  - cbn [Ascii.eqb Bool.eqb andb]. done.
  - apply Forall_forall. intros x Hx.
    destruct (Ascii.eqb_spec x ")") as [->|?]; done.
  - done.
Qed.

Lemma port_body_close (ws rest : cstring) (depth : Z) (lut : Lut) :
  all_space ws ->
  port_body (ws ++ ")" :: rest) depth lut = PBreak rest (depth - 1) lut.
Proof.
  intros Hws. unfold port_body.
  rewrite skip_spaces_app by done. by rewrite skip_spaces_fixed by done.
Qed.

Lemma print_ports_cons (b : cstring * cstring) (bs : list (cstring * cstring)) :
  print_ports (b :: bs)
  = "." :: b.1 ++ "(" :: b.2 ++ ")"
      :: match bs with [] => [] | _ :: _ => "," :: SP :: print_ports bs end.
Proof.
  cbn [print_ports]. unfold print_binding. cbn [app].
  rewrite <- !(assoc_L (++)). cbn [app]. rewrite <- !(assoc_L (++)).
  by destruct bs.
Qed.

(** The port loop on a printed port list. *)
Lemma port_loop_printed (bs : list (cstring * cstring)) (tail : cstring)
    (lut : Lut) (fuel : nat) :
  Forall (fun b => plain_ident b.1 /\ plain_net b.2) bs ->
  length (SP :: print_ports bs ++ SP :: ")" :: tail) < fuel ->
  port_loop fuel (SP :: print_ports bs ++ SP :: ")" :: tail) 1 lut
  = Done (tail, 0%Z,
          foldl (fun l b => if record_port b.1 then lut_add_net_unique l b.2
                            else l) lut bs).
Proof.
  assert (Hclose2 : forall l, port_body (SP :: SP :: ")" :: tail) 1 l
                              = PBreak tail 0 l).
  { intros l. by apply (port_body_close [SP; SP] tail 1 l); repeat constructor. }
  assert (Hclose1 : forall l, port_body (SP :: ")" :: tail) 1 l
                              = PBreak tail 0 l).
  { intros l. by apply (port_body_close [SP] tail 1 l); repeat constructor. }
  assert (Hcomma : forall p l, port_body ("," :: p) 1 l = PContinue p 1 l)
    by done.
  intros Hbs. revert lut fuel.
  induction Hbs as [|[port net] bs [Hport Hnet] _ IH]; intros lut fuel Hf.
  - destruct fuel as [|fuel]; [lia|]. cbn [print_ports app port_loop].
    change (0 <? 1)%Z with true. cbv iota. by rewrite Hclose2.
  - destruct fuel as [|fuel]; [lia|]. rewrite print_ports_cons in *.
    cbn [fst snd app] in *. cbn [port_loop].
    change (0 <? 1)%Z with true. cbv iota.
    rewrite <- !(assoc_L (++)) in *. cbn [app] in *.
    rewrite <- !(assoc_L (++)) in *. cbn [app] in *.
    assert (Hnp : ")" ∉ net).
    { intros Hin. unfold plain_net in Hnet. rewrite Forall_forall in Hnet.
      by destruct (Hnet _ Hin). }
    match goal with
    | |- context [port_body (SP :: "." :: port ++ "(" :: net ++ ")" :: ?r) 1 lut] =>
        pose proof (port_body_binding [SP] port net r 1 lut
                      ltac:(by repeat constructor) Hport Hnp) as Hb
    end.
    cbn [app] in Hb. rewrite Hb. clear Hb.
    cbn [foldl fst snd].
    destruct bs as [|b' bs'].
    + simpl in Hf. rewrite !length_app in Hf. simpl in Hf.
      destruct fuel as [|fuel]; [lia|]. cbn [app port_loop foldl].
      change (0 <? 1)%Z with true. cbv iota. by rewrite Hclose1.
    + remember (print_ports (b' :: bs')) as q eqn:Hq.
      cbn [app length] in Hf. rewrite !length_app in Hf.
      cbn [app length] in Hf. rewrite !length_app in Hf.
      cbn [app length] in Hf.
      destruct fuel as [|fuel]; [lia|]. cbn [app port_loop].
      change (0 <? 1)%Z with true. cbv iota.
      rewrite Hcomma. apply IH. clear IH.
      cbn [length] in *. rewrite !length_app in *. cbn [length] in *. lia.
Qed.

Lemma print_instantiation_app (i : instantiation) (rest : cstring) :
  print_instantiation i ++ rest
  = i_cell i ++ SP :: i_name i
      ++ SP :: "(" :: SP :: print_ports (i_ports i)
      ++ SP :: ")" :: ";" :: LF :: rest.
Proof.
  unfold print_instantiation. cbn [cstr list_ascii_of_string app].
  rewrite <- !(assoc_L (++)). cbn [app]. rewrite <- !(assoc_L (++)).
  cbn [app]. by rewrite <- !(assoc_L (++)).
Qed.

(** One trip of the outer loop over a printed instantiation. *)
Lemma scan_body_printed (i : instantiation) (rest : cstring) (luts : list Lut) :
  printable i ->
  scan_body (print_instantiation i ++ rest) luts
  = Done (LF :: rest, luts ++ [lut_of i]).
Proof.
  intros (Hcell & Hname & Hports). rewrite print_instantiation_app.
  unfold scan_body.
  pose proof (parse_identifier_plain [] (i_cell i)
                (SP :: i_name i ++ SP :: "(" :: SP :: print_ports (i_ports i)
                 ++ SP :: ")" :: ";" :: LF :: rest)
                ltac:(constructor) (is_gtp_lut_cell_plain _ Hcell)
                ltac:(done)) as H1.
  cbn [app] in H1. rewrite H1, Hcell. cbn [negb].
  pose proof (parse_identifier_plain [SP] (i_name i)
                (SP :: "(" :: SP :: print_ports (i_ports i)
                 ++ SP :: ")" :: ";" :: LF :: rest)
                ltac:(by repeat constructor) Hname ltac:(done)) as H2.
  cbn [app] in H2. rewrite H2.
  change (skip_spaces (SP :: "(" :: SP :: print_ports (i_ports i)
                       ++ SP :: ")" :: ";" :: LF :: rest))
    with ("(" :: SP :: print_ports (i_ports i)
          ++ SP :: ")" :: ";" :: LF :: rest).
  cbn [Ascii.eqb Bool.eqb andb].
  rewrite (port_loop_printed (i_ports i) (";" :: LF :: rest)); [done|done|lia].
Qed.

Lemma print_instantiation_length (i : instantiation) :
  8 <= length (print_instantiation i).
Proof.
  pose proof (print_instantiation_app i []) as H. rewrite app_nil_r in H.
  rewrite H, length_app. cbn [length]. rewrite length_app. cbn [length].
  rewrite length_app. cbn [length]. lia.
Qed.

Lemma scan_loop_step (fuel : nat) (p : cstring) (luts : list Lut) :
  p <> [] ->
  scan_loop (S fuel) p luts
  = match scan_body p luts with
    | Done (p', luts') => scan_loop fuel p' luts'
    | Overrun => Overrun
    | OutOfFuel => OutOfFuel
    end.
Proof. by destruct p. Qed.

Lemma scan_loop_printed (l : list instantiation) (luts : list Lut) (fuel : nat) :
  Forall printable l -> length (print_netlist l) < fuel ->
  scan_loop fuel (print_netlist l) luts = Done (luts ++ map lut_of l).
Proof.
  intros Hl. revert luts fuel.
  induction Hl as [|i l Hi _ IH]; intros luts fuel Hf.
  - destruct fuel; [lia|]. simpl. by rewrite app_nil_r.
  - destruct fuel as [|fuel]; [lia|].
    change (print_netlist (i :: l))
      with (print_instantiation i ++ print_netlist l) in *.
    pose proof (print_instantiation_length i) as Hlen.
    rewrite length_app in Hf.
    rewrite scan_loop_step.
    2:{ intros E. apply (f_equal length) in E. rewrite length_app in E.
        simpl in E. lia. }
    rewrite scan_body_printed by done.
    pose proof (scan_loop_skip_space [LF] (print_netlist l)
                  (luts ++ [lut_of i]) fuel (S (length (print_netlist l)))
                  ltac:(by repeat constructor)) as Hskip.
    cbn [app] in Hskip. rewrite Hskip by (simpl; lia).
    rewrite IH by lia. cbn [map]. by rewrite <- (assoc_L (++)).
Qed.

Lemma plain_ident_clean (s : cstring) :
  plain_ident s -> Forall (fun c => c <> "/" /\ c <> NUL) s.
Proof.
  intros [_ H]. eapply Forall_impl; [exact H|].
  intros c Hc. split; intros ->; discriminate.
Qed.

Lemma print_ports_clean (bs : list (cstring * cstring)) :
  Forall (fun b => plain_ident b.1 /\ plain_net b.2) bs ->
  Forall (fun c => c <> "/" /\ c <> NUL) (print_ports bs).
Proof.
  induction 1 as [|[port net] bs [Hport Hnet] _ IH]; [constructor|].
  rewrite print_ports_cons. cbn [fst snd] in *.
  constructor; [done|]. apply Forall_app. split; [by apply plain_ident_clean|].
  constructor; [done|]. apply Forall_app. split.
  { eapply Forall_impl; [exact Hnet|]. by intros c (_ & ? & ?). }
  constructor; [done|].
  destruct bs; [constructor|]. do 2 (constructor; [done|]). exact IH.
Qed.

Lemma print_netlist_clean (l : list instantiation) :
  Forall printable l ->
  Forall (fun c => c <> "/" /\ c <> NUL) (print_netlist l).
Proof.
  induction 1 as [|i l (Hcell & Hname & Hports) _ IH]; [constructor|].
  change (print_netlist (i :: l))
    with (print_instantiation i ++ print_netlist l).
  rewrite print_instantiation_app.
  apply Forall_app. split; [by apply plain_ident_clean, is_gtp_lut_cell_plain|].
  constructor; [done|].
  apply Forall_app. split; [by apply plain_ident_clean|].
  do 3 (constructor; [done|]).
  apply Forall_app. split; [by apply print_ports_clean|].
  by do 4 (constructor; [done|]).
Qed.

Lemma clean_text_stripped (s : cstring) :
  Forall (fun c => c <> "/" /\ c <> NUL) s -> stripped s = s.
Proof.
  intros H. unfold stripped, strip_line_comments, strip_block_comments.
  assert (Hnf : nul_free s).
  { intros Hin. rewrite Forall_forall in H. by destruct (H _ Hin). }
  assert (Hsl : Forall (fun c => c <> "/") s).
  { eapply Forall_impl; [exact H|]. by intros c [? _]. }
  pose proof (xstrdup_app s [] Hnf) as H1.
  pose proof (strip_block_keep s [] Hsl) as H2.
  pose proof (strip_line_keep s [] Hsl) as H3.
  rewrite !app_nil_r in *. simpl in *. by rewrite H1, H2, H3.
Qed.

Lemma lut_add_net_unique_fields (l : Lut) (net : cstring) :
  inst (lut_add_net_unique l net) = inst l
  /\ used (lut_add_net_unique l net) = used l.
Proof.
  by destruct (lut_add_net_unique_cases l net) as [_ [->|(_ & _ & ->)]].
Qed.

Lemma lut_add_net_unique_nul_free (l : Lut) (net : cstring) :
  nul_free net -> Forall nul_free (nets l) ->
  Forall nul_free (nets (lut_add_net_unique l net)).
Proof.
  intros Hnet Hl.
  destruct (lut_add_net_unique_cases l net) as [_ [->|(_ & _ & ->)]]; [done|].
  simpl. apply Forall_app. split; [done|]. constructor; [|done].
  by apply nul_free_trim.
Qed.

Lemma plain_net_nul_free (net : cstring) : plain_net net -> nul_free net.
Proof.
  intros H Hin. unfold plain_net in H. rewrite Forall_forall in H.
  by destruct (H _ Hin) as (_ & _ & ?).
Qed.

(** What folding the port bindings into an instance collects. *)
Lemma fold_bindings_spec (bs : list (cstring * cstring)) (l0 : Lut) :
  Forall (fun b => plain_net b.2) bs ->
  Forall nul_free (nets l0) -> NoDup (nets l0) ->
  let l := foldl (fun l b => if record_port b.1
                             then lut_add_net_unique l b.2 else l) l0 bs in
  inst l = inst l0 /\ used l = used l0 /\ NoDup (nets l)
  /\ forall x, x ∈ nets l <->
        x ∈ nets l0
        \/ exists port net, (port, net) ∈ bs /\ record_port port = true
                            /\ x = trim net /\ x <> [].
Proof.
  intros Hbs. revert l0.
  induction Hbs as [|[port net] bs Hnet _ IH]; intros l0 Hnf Hnd.
  - simpl. repeat split; try done.
    + by left.
    + intros [?|(? & ? & []%elem_of_nil & _)]. done.
  - cbn [foldl fst snd] in *. apply plain_net_nul_free in Hnet.
    destruct (record_port port) eqn:Hrec.
    + destruct (lut_add_net_unique_fields l0 net) as [Hi Hu].
      destruct (IH (lut_add_net_unique l0 net)) as (Hi' & Hu' & Hnd' & Hx).
      { by apply lut_add_net_unique_nul_free. }
      { destruct (lut_add_net_unique_cases l0 net)
          as [_ [->|(_ & Hnin & ->)]]; [done|].
        simpl. apply NoDup_app. split; [done|].
        split; [|apply NoDup_singleton].
        by intros x Hxin ->%list_elem_of_singleton. }
      split; [congruence|]. split; [congruence|]. split; [done|].
      intros x. rewrite Hx. split.
      * intros [Hin|(p & n & Hpn & ?)].
        -- destruct (decide (trim net = [])) as [He|Hne].
           ++ left.
              destruct (lut_add_net_unique_cases l0 net) as [Hsame _].
              rewrite Hsame in Hin by auto. done.
           ++ apply lut_add_net_unique_nets in Hin as [?| ->]; [by left|].
              right. exists port, net. split; [apply list_elem_of_here|].
              done.
        -- right. exists p, n. split; [by apply list_elem_of_further|done].
      * intros [Hin|(p & n & Hpn & Hr & -> & Hne)].
        -- left.
           destruct (lut_add_net_unique_cases l0 net)
             as [_ [->|(_ & _ & ->)]]; [done|].
           simpl. apply elem_of_app. by left.
        -- apply elem_of_cons in Hpn as [Heq|Hpn].
           ++ injection Heq as -> ->. left. by apply lut_add_net_unique_elem.
           ++ right. by exists p, n.
    + destruct (IH l0 Hnf Hnd) as (Hi' & Hu' & Hnd' & Hx).
      repeat split; try done.
      * intros [?|(p & n & Hpn & ?)]%Hx; [by left|].
        right. exists p, n. split; [by apply list_elem_of_further|done].
      * intros [?|(p & n & Hpn & Hr & ?)]; apply Hx; [by left|].
        apply elem_of_cons in Hpn as [Heq|Hpn];
          [injection Heq as -> ->; congruence|].
        right. by exists p, n.
Qed.

(** X9. Printing and extracting round-trip.  A list of instantiations
    printed in the format of the header comment, each with a cell name the
    predicate accepts, a plain instance name, plain port names and net
    expressions free of closing parentheses, slashes and NULs, is extracted
    without overrun into one instance per instantiation, in order.  Each
    instance has the name of its instantiation, a clear flag, and as inputs,
    without repetition, exactly the non-empty trimmed net expressions bound
    to the [I<digits>] ports. *)
Theorem printed_netlist_round_trip (l : list instantiation) :
  Forall printable l ->
  parse_luts_from_buffer (print_netlist l) = Done (map lut_of l)
  /\ Forall (fun i =>
               inst (lut_of i) = i_name i /\ used (lut_of i) = false
               /\ NoDup (nets (lut_of i))
               /\ forall x, x ∈ nets (lut_of i) <->
                     exists port net,
                       (port, net) ∈ i_ports i /\ record_port port = true
                       /\ x = trim net /\ x <> []) l.
Proof.
  intros Hl. split.
  - unfold parse_luts_from_buffer. fold (stripped (print_netlist l)).
    rewrite clean_text_stripped by by apply print_netlist_clean.
    by rewrite scan_loop_printed by (done || lia).
  - eapply Forall_impl; [exact Hl|]. intros i (_ & _ & Hports).
    destruct (fold_bindings_spec (i_ports i) (mkLut (i_name i) [] false))
      as (Hi & Hu & Hnd & Hx).
    + eapply Forall_impl; [exact Hports|]. by intros b [_ ?].
    + constructor.
    + constructor.
    + fold (lut_of i) in *. simpl in *. repeat split; try done.
      * intros [[]%elem_of_nil|?]%Hx. done.
      * intros ?. apply Hx. by right.
Qed.

Lemma printed_netlist_round_trip_witness :
  let i1 := mkInstantiation (cstr "GTP_LUT6") (cstr "u1")
              [(cstr "I0", cstr " a "); (cstr "Z", cstr "x");
               (cstr "I1", cstr "a"); (cstr "I2", cstr "bus[3]")] in
  parse_luts_from_buffer (print_netlist [i1])
  = Done [mkLut (cstr "u1") [cstr "a"; cstr "bus[3]"] false].
Proof.
  intros i1.
  destruct (printed_netlist_round_trip [i1]) as [H _]; [|exact H].
  constructor; [|constructor]. split; [reflexivity|]. split.
  - split; [done | repeat constructor].
  - repeat (constructor; [split; [split; [done|repeat constructor]
                                 |repeat (constructor; [done|]); constructor]|]).
    constructor.
Defined.

(** ** The cursor stays inside the text *)

Lemma skip_spaces_suffix (p : cstring) : skip_spaces p `suffix_of` p.
Proof. destruct (skip_spaces_split p) as (ws & Hp & _). by exists ws. Qed.

Lemma scan_while_suffix (f : ascii -> bool) (p tok r : cstring) :
  scan_while f p = (tok, r) -> r `suffix_of` p.
Proof. intros (-> & _)%scan_while_split. by exists tok. Qed.

Lemma parse_identifier_suffix (pp tok r : cstring) :
  parse_identifier pp = Some (tok, r) -> r `suffix_of` pp.
Proof.
  intros (_ & ws & -> & _)%parse_identifier_split.
  exists (ws ++ tok). by rewrite <- (assoc_L (++)).
Qed.

Lemma suffix_tail (c : ascii) (p q : cstring) :
  c :: p `suffix_of` q -> p `suffix_of` q.
Proof. intros [k ->]. exists (k ++ [c]). by rewrite <- (assoc_L (++)). Qed.

Lemma resync_suffix (p : cstring) : resync p `suffix_of` p.
Proof.
  unfold resync. destruct (scan_while _ p) as [tok r] eqn:Hs.
  apply scan_while_suffix in Hs. destruct r as [|c r]; [done|].
  destruct (Ascii.eqb c ";"); [by eapply suffix_tail | done].
Qed.

Lemma port_body_suffix (p0 : cstring) (depth : Z) (lut : Lut) :
  match port_body p0 depth lut with
  | PBreak p' _ l' | PContinue p' _ l' =>
      p' `suffix_of` p0 /\ inst l' = inst lut
  | PPastEnd => True
  end.
Proof.
  unfold port_body. pose proof (skip_spaces_suffix p0) as H0.
  destruct (skip_spaces p0) as [|c p1]; [done|].
  pose proof (suffix_tail _ _ _ H0) as H1.
  destruct (Ascii.eqb c ")"); [done|].
  destruct (Ascii.eqb c "("); [done|].
  destruct (negb (Ascii.eqb c ".")); [done|].
  destruct (parse_identifier p1) as [[port p2]|] eqn:Hid; [|done].
  apply parse_identifier_suffix in Hid.
  pose proof (skip_spaces_suffix p2) as H2.
  assert (H3 : skip_spaces p2 `suffix_of` p0) by (by do 2 (etrans; [|done])).
  destruct (skip_spaces p2) as [|c3 p4]; [done|].
  destruct (Ascii.eqb c3 "("); [|done].
  destruct (scan_while _ p4) as [net p5] eqn:Hs.
  apply scan_while_suffix in Hs.
  assert (H5 : p5 `suffix_of` p0).
  { etrans; [exact Hs|]. by eapply suffix_tail. }
  split.
  - destruct p5 as [|c5 r]; [done|].
    destruct (Ascii.eqb c5 ")"); [by eapply suffix_tail | done].
  - destruct (record_port port); [|done].
    by destruct (lut_add_net_unique_fields lut net).
Qed.

Lemma port_loop_suffix (fuel : nat) (p : cstring) (depth : Z) (lut : Lut) :
  match port_loop fuel p depth lut with
  | Done (p', _, l') => p' `suffix_of` p /\ inst l' = inst lut
  | _ => True
  end.
Proof.
  revert p depth lut; induction fuel as [|fuel IH]; intros p depth lut;
    [done|].
  simpl. destruct p as [|c p]; [done|].
  destruct (0 <? depth)%Z; [|done].
  pose proof (port_body_suffix (c :: p) depth lut) as Hb.
  destruct (port_body (c :: p) depth lut) as [p' d' l'|p' d' l'|];
    [done| |done].
  destruct Hb as [Hp' Hl']. specialize (IH p' d' l').
  destruct (port_loop fuel p' d' l') as [[[p'' ?] l'']| |]; [|done|done].
  destruct IH as [? ?]. split; [by etrans | congruence].
Qed.

(** One trip of the outer loop leaves the cursor at a suffix of where it
    was, keeps the instances found so far and appends at most one, whose
    name is a token. *)
Lemma scan_body_suffix (p : cstring) (luts : list Lut) :
  match scan_body p luts with
  | Done (p', luts') =>
      p' `suffix_of` p
      /\ (luts' = luts \/ exists l, luts' = luts ++ [l] /\ token (inst l))
  | _ => True
  end.
Proof.
  unfold scan_body.
  destruct (parse_identifier p) as [[cell p1]|] eqn:Hid.
  2:{ split; [|by left]. destruct p; [done|]. simpl. rewrite drop_0.
      by apply suffix_cons_r. }
  apply parse_identifier_suffix in Hid.
  destruct (negb (is_gtp_lut_cell cell)); [by split; [|left]|].
  destruct (parse_identifier p1) as [[name p2]|] eqn:Hid2;
    [|by split; [|left]].
  pose proof (parse_identifier_token _ _ _ Hid2) as Htok.
  apply parse_identifier_suffix in Hid2.
  pose proof (skip_spaces_suffix p2) as H2.
  assert (H3 : skip_spaces p2 `suffix_of` p) by (by do 2 (etrans; [|done])).
  destruct (skip_spaces p2) as [|c p4]; [by split; [|left]|].
  destruct (Ascii.eqb c "("); [|by split; [|left]].
  pose proof (port_loop_suffix (S (length p4)) p4 1
                (mkLut name [] false)) as Hloop.
  destruct (port_loop _ p4 1 _) as [[[p5 d] lut]| |]; [|done|done].
  destruct Hloop as [Hp5 Hinst]. split.
  - etrans; [apply resync_suffix|]. etrans; [exact Hp5|].
    by eapply suffix_tail.
  - right. exists lut. split; [done|]. by rewrite Hinst.
Qed.

Lemma scan_loop_names (fuel : nat) (p : cstring) (luts res : list Lut) :
  Forall (fun l => token (inst l)) luts ->
  scan_loop fuel p luts = Done res ->
  Forall (fun l => token (inst l)) res.
Proof.
  revert p luts; induction fuel as [|fuel IH]; intros p luts Hl; [done|].
  simpl. destruct p as [|c p]; [by intros [= <-]|].
  pose proof (scan_body_suffix (c :: p) luts) as Hb.
  destruct (scan_body (c :: p) luts) as [[p' luts']| |]; [|done|done].
  destruct Hb as [_ [->|(l & -> & Htok)]]; apply IH; [done|].
  apply Forall_app. split; [done | by constructor].
Qed.

(** X10. The name of every extracted instance is a token as
    [parse_identifier] returns it: not empty and free of white space, so in
    particular free of blanks and line feeds. *)
Theorem extracted_names_are_tokens (buf_in : list ascii) (luts : list Lut) :
  parse_luts_from_buffer buf_in = Done luts ->
  Forall (fun l => inst l <> [] /\ Forall (fun c => isspace c = false) (inst l))
    luts.
Proof. apply scan_loop_names. constructor. Qed.

Lemma extracted_names_are_tokens_witness :
  Forall (fun l => inst l <> [] /\ Forall (fun c => isspace c = false) (inst l))
    scenario_luts.
Proof.
  apply (extracted_names_are_tokens scenario_text). vm_compute. reflexivity.
Defined.

(** *** When the scan cannot run off the buffer *)

Lemma ends_solid_suffix (p q : cstring) :
  q `suffix_of` p -> ends_solid p -> ends_solid q.
Proof.
  intros [k ->]. unfold ends_solid.
  destruct q as [|c q] using rev_ind; [done|].
  by rewrite (assoc_L (++)), !last_snoc.
Qed.

Lemma ends_solid_not_blank (p : cstring) :
  p <> [] -> ends_solid p -> skip_spaces p <> [].
Proof.
  intros Hne Hsolid Hsk.
  destruct (skip_spaces_split p) as (ws & Hp & Hws).
  rewrite Hsk, app_nil_r in Hp. subst ws. unfold ends_solid in Hsolid.
  destruct p as [|c p] using rev_ind; [done|].
  rewrite last_snoc in Hsolid.
  apply Forall_app in Hws as [_ Hc]. apply Forall_cons in Hc as [Hc _].
  congruence.
Qed.

Lemma port_loop_no_overrun (fuel : nat) (p : cstring) (depth : Z) (lut : Lut) :
  ends_solid p -> port_loop fuel p depth lut <> Overrun.
Proof.
  revert p depth lut; induction fuel as [|fuel IH]; intros p depth lut Hp;
    [done|].
  simpl. destruct p as [|c p]; [done|].
  destruct (0 <? depth)%Z; [|done].
  pose proof (port_body_suffix (c :: p) depth lut) as Hb.
  pose proof (port_body_past_end (c :: p) depth lut) as Hpast.
  destruct (port_body (c :: p) depth lut) as [p' d' l'|p' d' l'|]; [done| |].
  - destruct Hb as [Hp' _]. apply IH. by eapply ends_solid_suffix.
  - destruct Hpast as [Hpast _].
    by destruct (ends_solid_not_blank (c :: p) ltac:(done) Hp (Hpast eq_refl)).
Qed.

Lemma scan_loop_no_overrun (fuel : nat) (p : cstring) (luts : list Lut) :
  ends_solid p -> scan_loop fuel p luts <> Overrun.
Proof.
  revert p luts; induction fuel as [|fuel IH]; intros p luts Hp; [done|].
  simpl. destruct p as [|c p]; [done|].
  pose proof (scan_body_suffix (c :: p) luts) as Hb.
  destruct (scan_body (c :: p) luts) as [[p' luts']| |] eqn:Hbody; [|exfalso|done].
  - destruct Hb as [Hp' _]. apply IH. by eapply ends_solid_suffix.
  - clear Hb. unfold scan_body in Hbody.
    destruct (parse_identifier (c :: p)) as [[cell p1]|] eqn:Hid; [|done].
    apply parse_identifier_suffix in Hid.
    destruct (negb (is_gtp_lut_cell cell)); [done|].
    destruct (parse_identifier p1) as [[name p2]|] eqn:Hid2; [|done].
    apply parse_identifier_suffix in Hid2.
    pose proof (skip_spaces_suffix p2) as H2.
    destruct (skip_spaces p2) as [|c4 p4]; [done|].
    destruct (Ascii.eqb c4 "("); [|done].
    assert (H4 : ends_solid p4).
    { eapply ends_solid_suffix; [|exact Hp].
      eapply suffix_tail. by do 2 (etrans; [|done]). }
    pose proof (port_loop_no_overrun (S (length p4)) p4 1
                  (mkLut name [] false) H4) as Hno.
    by destruct (port_loop _ p4 1 _) as [[[? ?] ?]| |].
Qed.

(** X11. The scan cannot leave the buffer when the text, with its comments
    blanked, is empty or ends in a character that is no white space: the
    extraction then returns an instance list. *)
Theorem no_overrun_without_trailing_space (buf_in : list ascii) :
  match last (stripped buf_in) with
  | Some c => isspace c = false
  | None => True
  end ->
  exists luts, parse_luts_from_buffer buf_in = Done luts.
Proof.
  intros Hsolid.
  pose proof (parse_luts_from_buffer_fuel buf_in) as Hfuel.
  pose proof (scan_loop_no_overrun (S (length (stripped buf_in)))
                (stripped buf_in) [] Hsolid) as Hover.
  change (scan_loop (S (length (stripped buf_in))) (stripped buf_in) [])
    with (parse_luts_from_buffer buf_in) in Hover.
  destruct (parse_luts_from_buffer buf_in) as [luts| |]; [by exists luts|done..].
Qed.

Lemma no_overrun_without_trailing_space_witness :
  exists luts, parse_luts_from_buffer (cstr "GTP_LUT6 u1 ( .I0(a),") = Done luts.
Proof.
  apply (no_overrun_without_trailing_space (cstr "GTP_LUT6 u1 ( .I0(a),")).
  reflexivity.
Defined.

(** ** More on the union count *)

Lemma union_size_sym (a b : list cstring) :
  length (remove_dups (a ++ b)) = length (remove_dups (b ++ a)).
Proof.
  apply Permutation_length, NoDup_Permutation; [apply NoDup_remove_dups..|].
  intros x. rewrite !elem_of_remove_dups, !elem_of_app. tauto.
Qed.

(** X12. The union test accepts any two instances with at most 6 inputs in
    total and rejects every first instance with more than 6 inputs; on
    duplicate-free inputs it does not depend on the order of the two
    instances and also rejects every second instance with more than 6
    inputs. *)
Theorem union_test_bounds (a b : Lut) :
  (length (nets a) + length (nets b) <= 6 ->
   union_unique_count_le6 a b = true)
  /\ (union_unique_count_le6 a b = true -> length (nets a) <= 6)
  /\ (NoDup (nets a) -> NoDup (nets b) ->
      union_unique_count_le6 a b = union_unique_count_le6 b a
      /\ (union_unique_count_le6 a b = true -> length (nets b) <= 6)).
Proof.
  unfold union_unique_count_le6. rewrite !union_count_from_spec.
  pose proof (length_filter (fun y => y ∉ nets a) (nets b)) as Hf.
  split; [|split].
  - intros H. apply Nat.leb_le. lia.
  - intros H%Nat.leb_le. lia.
  - intros Ha Hb.
    pose proof (union_length (nets a) (nets b) Ha Hb) as H1.
    pose proof (union_length (nets b) (nets a) Hb Ha) as H2.
    rewrite union_size_sym in H1. rewrite <- H1, <- H2. split; [done|].
    intros H%Nat.leb_le. lia.
Qed.

Lemma union_test_bounds_witness :
  union_unique_count_le6 scenario_u2 scenario_u1 = true
  /\ length (nets scenario_u2) <= 6
  /\ union_unique_count_le6 scenario_u1 scenario_u2
     = union_unique_count_le6 scenario_u2 scenario_u1.
Proof.
  destruct (union_test_bounds scenario_u2 scenario_u1) as (H1 & H2 & _).
  destruct (union_test_bounds scenario_u1 scenario_u2) as (_ & _ & H3).
  split; [apply H1; simpl; lia|]. split; [apply H2; reflexivity|].
  apply H3; vm_compute; repeat constructor; not_in_text.
Defined.

(** ** More on the pairing loop *)

Lemma pair_members_length (ps : list (nat * nat)) :
  length (pair_members ps) = 2 * length ps.
Proof. induction ps as [|p ps IH]; simpl; lia. Qed.

(** X13. Pairing writes nothing but flags: the instance array keeps its
    length, its names and its nets.  Every pair holds two different indices
    into the array, the smaller one first, and there are at most half as
    many pairs as instances, so the two index arrays of [n_luts] entries are
    never overrun. *)
Theorem pairing_stays_in_bounds (luts0 : list Lut) :
  let final := greedy_pairing luts0 in
  length final.1 = length luts0
  /\ inst <$> final.1 = inst <$> luts0
  /\ nets <$> final.1 = nets <$> luts0
  /\ (forall a b, (a, b) ∈ final.2 -> a < b < length luts0)
  /\ 2 * length final.2 <= length luts0.
Proof.
  intros final.
  pose proof (pairing_inv_state_before luts0 (length luts0)) as Hinv.
  rewrite <- greedy_pairing_state_before in Hinv. fold final in Hinv.
  pose proof (inv_data _ _ _ Hinv) as Hdata.
  assert (Hlen : length final.1 = length luts0).
  { apply (f_equal length) in Hdata. by rewrite !length_fmap in Hdata. }
  assert (Hrange : forall k, k ∈ pair_members final.2 -> k < length luts0).
  { intros k Hk. destruct (inv_used _ _ _ Hinv k Hk) as (l & Hl & _).
    apply lookup_lt_Some in Hl. lia. }
  split; [done|]. split; [|split; [|split]].
  - apply (f_equal (fmap fst)) in Hdata.
    by rewrite <- !list_fmap_compose in Hdata.
  - apply (f_equal (fmap snd)) in Hdata.
    by rewrite <- !list_fmap_compose in Hdata.
  - intros a b Hab. destruct (inv_range _ _ _ Hinv a b Hab) as [_ Hlt].
    split; [done|]. apply Hrange, elem_of_pair_members. eauto.
  - rewrite <- pair_members_length.
    transitivity (length (seq 0 (length luts0))); [|by rewrite length_seq].
    apply submseteq_length, NoDup_submseteq; [apply (inv_nodup _ _ _ Hinv)|].
    intros k Hk. apply elem_of_seq. specialize (Hrange k Hk). lia.
Qed.

(** A clear flag was clear all along, on the same instance. *)
Lemma unused_earlier (luts0 : list Lut) (i m k : nat) (l : Lut) :
  i <= m -> (state_before luts0 m).1 !! k = Some l -> used l = false ->
  (state_before luts0 i).1 !! k = Some l.
Proof.
  induction 1 as [|m Hle IH]; [done|]. rewrite state_before_S.
  destruct (pair_body_cases (state_before luts0 m) m)
    as [[-> _]|(a & best & _ & _ & _ & _ & _ & ->)]; [done|].
  simpl. intros Hl Hu. apply IH; [|done].
  destruct (decide (best = k)) as [->|Hbk].
  { rewrite list_lookup_alter_eq in Hl.
    destruct (alter set_used m _ !! k); [|done]. injection Hl as <-. done. }
  rewrite list_lookup_alter_ne in Hl by done.
  destruct (decide (m = k)) as [->|Hmk].
  { rewrite list_lookup_alter_eq in Hl.
    destruct (_ !! k); [|done]. injection Hl as <-. done. }
  by rewrite list_lookup_alter_ne in Hl.
Qed.

(** X14. The pairing is maximal: when the loop is over, no two instances
    that are both still unconsumed pass the union test, taken in the order of
    the array. *)
Theorem greedy_pairing_maximal (luts0 : list Lut) (i j : nat) (la lb : Lut) :
  let final := greedy_pairing luts0 in
  i < j ->
  final.1 !! i = Some la -> final.1 !! j = Some lb ->
  used la = false -> used lb = false ->
  union_unique_count_le6 la lb = false.
Proof.
  intros final Hij Hla Hlb Hua Hub. unfold final in *.
  rewrite greedy_pairing_state_before in *.
  assert (Hi : S i <= length luts0).
  { apply lookup_lt_Some in Hla. by rewrite state_before_length in Hla. }
  set (n := length luts0) in *.
  pose proof (unused_earlier luts0 (S i) n i la Hi Hla Hua) as Hla1.
  pose proof (unused_earlier luts0 i n i la ltac:(lia) Hla Hua) as Hla0.
  pose proof (unused_earlier luts0 i n j lb ltac:(lia) Hlb Hub) as Hlb0.
  rewrite state_before_S in Hla1.
  destruct (pair_body_cases (state_before luts0 i) i)
    as [[_ Hnone]|(a & best & _ & _ & Hlt & _ & _ & Heq)].
  - destruct (union_unique_count_le6 la lb) eqn:Hok; [|done].
    destruct (Hnone la Hla0 Hua j Hij). by exists lb.
  - rewrite Heq in Hla1. simpl in Hla1.
    rewrite list_lookup_alter_ne in Hla1 by lia.
    rewrite list_lookup_alter_eq, Hla0 in Hla1. simpl in Hla1.
    injection Hla1 as Hla1. rewrite <- Hla1 in Hua. discriminate.
Qed.

Lemma greedy_pairing_maximal_witness :
  union_unique_count_le6 scenario_u1 scenario_u3 = false.
Proof.
  apply (greedy_pairing_maximal [scenario_u1; scenario_u3] 0 1);
    [lia|reflexivity..].
Defined.

(** X15. Started on instances with clear flags, as extraction builds them,
    pairing leaves an instance marked consumed exactly when it is a member
    of an emitted pair. *)
Theorem consumed_iff_paired (luts0 : list Lut) (k : nat) (l : Lut) :
  Forall (fun l0 => used l0 = false) luts0 ->
  (greedy_pairing luts0).1 !! k = Some l ->
  used l = true <-> k ∈ pair_members (greedy_pairing luts0).2.
Proof.
  intros Hfresh Hl. split.
  - rewrite greedy_pairing_state_before in *. revert k l Hl.
    induction (length luts0) as [|m IH]; intros k l Hl Hu.
    + simpl in Hl. rewrite Forall_forall in Hfresh.
      apply list_elem_of_lookup_2, Hfresh in Hl. congruence.
    + rewrite state_before_S in *.
      destruct (pair_body_cases (state_before luts0 m) m)
        as [[Heq _]|(a & best & Ha & _ & _ & (b & Hb & _) & _ & Heq)];
        rewrite Heq in *; [by eapply IH|].
      simpl in *. rewrite pair_members_snoc, elem_of_app.
      destruct (decide (k = m)) as [->|Hkm];
        [right; apply list_elem_of_here|].
      destruct (decide (k = best)) as [->|Hkb];
        [right; apply list_elem_of_further, list_elem_of_here|].
      left. rewrite !list_lookup_alter_ne in Hl by done. by eapply IH.
  - intros Hk.
    pose proof (pairing_inv_state_before luts0 (length luts0)) as Hinv.
    rewrite <- greedy_pairing_state_before in Hinv.
    destruct (inv_used _ _ _ Hinv k Hk) as (l' & Hl' & Hu). congruence.
Qed.

Lemma consumed_iff_paired_witness :
  true = true <-> 1 ∈ pair_members (greedy_pairing scenario_luts).2.
Proof.
  apply (consumed_iff_paired scenario_luts 1 (set_used scenario_u2)).
  - by repeat constructor.
  - reflexivity.
Defined.

Lemma pairing_stays_in_bounds_witness :
  0 < 1 < length scenario_luts.
Proof.
  destruct (pairing_stays_in_bounds scenario_luts) as (_ & _ & _ & H & _).
  apply (H 0 1). vm_compute. apply list_elem_of_here.
Defined.

(** ** Decimal numbers *)

Lemma uint_digits (d : Decimal.uint) :
  Forall (fun c => isdigit c = true) (cstr (NilEmpty.string_of_uint d)).
Proof. induction d; simpl; constructor; done. Qed.

Lemma uint_value (d : Decimal.uint) (acc : nat) :
  foldl (fun v c => (v * 10 + digit_value c)%Z) (Z.of_nat acc)
    (cstr (NilEmpty.string_of_uint d))
  = Z.of_nat (Nat.of_uint_acc d acc).
Proof.
  revert acc; induction d as [|d IH|d IH|d IH|d IH|d IH|d IH|d IH|d IH|d IH|d IH];
    intros acc; [done|..];
    cbn [NilEmpty.string_of_uint cstr list_ascii_of_string foldl Nat.of_uint_acc];
    fold (cstr (NilEmpty.string_of_uint d)); rewrite <- IH; f_equal;
    rewrite Nat.tail_mul_spec; unfold digit_value;
    match goal with
    | |- context [nat_of_ascii ?c] =>
        let v := eval vm_compute in (nat_of_ascii c) in
        change (nat_of_ascii c) with v
    end; lia.
Qed.

Lemma print_int_digits (n : nat) :
  print_int n <> [] /\ Forall (fun c => isdigit c = true) (print_int n)
  /\ decimal_value (print_int n) = Z.of_nat n.
Proof.
  unfold print_int, decimal_value. split; [|split].
  - intros H. pose proof (Unsigned.of_to n) as Hn.
    destruct (Nat.to_uint n) eqn:E; try discriminate H.
    simpl in Hn. subst n. discriminate E.
  - apply uint_digits.
  - change 0%Z with (Z.of_nat 0). rewrite (uint_value (Nat.to_uint n) 0).
    f_equal. apply Unsigned.of_to.
Qed.

(** ** The report *)

Lemma filter_none (x : ascii) (s : list ascii) :
  Forall (fun c => c <> x) s -> filter (fun c => c = x) s = [].
Proof.
  induction 1 as [|c s Hc _ IH]; [done|]. by rewrite filter_cons_False.
Qed.

Lemma digits_no_space (s : cstring) (x : ascii) :
  isdigit x = false -> Forall (fun c => isdigit c = true) s ->
  Forall (fun c => c <> x) s.
Proof.
  intros Hx H. eapply Forall_impl; [exact H|]. intros c Hc ->. congruence.
Qed.

Lemma token_no_space (s : cstring) (x : ascii) :
  isspace x = true -> s = [] \/ token s -> Forall (fun c => c <> x) s.
Proof.
  intros Hx [->|[_ H]]; [constructor|].
  eapply Forall_impl; [exact H|]. intros c Hc ->. congruence.
Qed.

Lemma inst_at_token (luts : list Lut) (k : nat) :
  Forall (fun l => token (inst l)) luts ->
  inst_at luts k = [] \/ token (inst_at luts k).
Proof.
  intros H. unfold inst_at. destruct (luts !! k) as [l|] eqn:Hl; [|by left].
  right. rewrite Forall_forall in H. by eapply H, list_elem_of_lookup_2.
Qed.

Lemma report_counts (st : pstate) (x : ascii) :
  isspace x = true -> Forall (fun l => token (inst l)) st.1 ->
  length (filter (fun c => c = x) (report st))
  = (if Ascii.eqb x LF then 1 else 0)
    + length st.2 * ((if Ascii.eqb x SP then 1 else 0)
                     + (if Ascii.eqb x LF then 1 else 0)).
Proof.
  intros Hx Hnames. unfold report, cstring in *.
  assert (Hone : forall y, length (filter (fun c => c = x) [y])
                           = if Ascii.eqb x y then 1 else 0).
  { intros y. destruct (Ascii.eqb_spec x y) as [->|?].
    - by rewrite filter_cons_True.
    - by rewrite filter_cons_False. }
  rewrite !filter_app, !length_app, Hone.
  rewrite filter_none, Nat.add_0_l.
  2:{ apply digits_no_space; [|apply print_int_digits].
      destruct x as [[] [] [] [] [] [] [] []]; done. }
  f_equal. induction st.2 as [|[a b] ps IH]; [done|].
  cbn [flat_map fst snd]. rewrite !filter_app, !length_app, !Hone, IH.
  rewrite !filter_none by (apply token_no_space, inst_at_token; done).
  simpl. lia.
Qed.

(** X16. The report that [run_one] writes can be read back.  Its first line
    is the pair count in decimal digits, which decode to the number of
    pairs; it has exactly one line feed per pair after that of the first
    line and exactly one blank per pair, since the instance names it prints
    are tokens. *)
Theorem report_is_readable (buf : list ascii) (st : pstate) (text : cstring) :
  run_one buf = Done (st, text) ->
  (exists body, text = print_int (length st.2) ++ LF :: body)
  /\ print_int (length st.2) <> []
  /\ Forall (fun c => isdigit c = true) (print_int (length st.2))
  /\ decimal_value (print_int (length st.2)) = Z.of_nat (length st.2)
  /\ line_feeds text = S (length st.2)
  /\ length (filter (fun c => c = SP) text) = length st.2.
Proof.
  unfold run_one. destruct (parse_luts_from_buffer buf) as [luts| |] eqn:Hp;
    [|done..].
  intros [= <- <-].
  destruct (print_int_digits (length (greedy_pairing luts).2))
    as (Hne & Hdig & Hval).
  split; [by eexists|]. do 3 (split; [done|]).
  assert (Hnames : Forall (fun l => token (inst l)) (greedy_pairing luts).1).
  { pose proof (scan_loop_names _ _ [] luts ltac:(constructor) Hp) as Hl.
    pose proof (pairing_inv_state_before luts (length luts)) as Hinv.
    rewrite <- greedy_pairing_state_before in Hinv.
    pose proof (inv_data _ _ _ Hinv) as Hdata.
    apply Forall_lookup. intros k l Hk.
    destruct (lookup_lut_data _ _ _ _ Hdata Hk) as (l0 & Hl0 & _ & Hi).
    rewrite <- Hi. rewrite Forall_forall in Hl.
    by eapply Hl, list_elem_of_lookup_2. }
  unfold line_feeds, cstring in *. rewrite !report_counts by done.
  simpl. lia.
Qed.

Lemma report_is_readable_witness :
  (exists body, cstr "1" ++ [LF] ++ cstr "u1 u2" ++ [LF]
                = print_int 1 ++ LF :: body)
  /\ print_int 1 <> []
  /\ Forall (fun c => isdigit c = true) (print_int 1)
  /\ decimal_value (print_int 1) = 1%Z
  /\ line_feeds (cstr "1" ++ [LF] ++ cstr "u1 u2" ++ [LF]) = 2
  /\ length (filter (fun c => c = SP) (cstr "1" ++ [LF] ++ cstr "u1 u2" ++ [LF]))
     = 1.
Proof.
  apply (report_is_readable scenario_text
           ([set_used scenario_u1; set_used scenario_u2; scenario_u3],
            [(0, 1)])).
  vm_compute. reflexivity.
Defined.

(** ** The driver: recognising file names *)

Lemma starts_with_iff (p lit : cstring) :
  starts_with p lit = true <-> exists r, p = lit ++ r.
Proof.
  revert p; induction lit as [|c lit IH]; intros p; simpl.
  - split; [intros _; by exists p | done].
  - destruct p as [|x p].
    + split; [done | by intros [r ?]].
    + destruct (Ascii.eqb_spec x c) as [->|Hne].
      * rewrite IH. split; intros [r Hr]; exists r; congruence.
      * split; [done|]. intros [r Hr]. congruence.
Qed.

Lemma ends_with_iff (s suffix : cstring) :
  ends_with s suffix = true <-> exists r, s = r ++ suffix.
Proof.
  unfold ends_with. destruct (Nat.ltb_spec (length s) (length suffix)) as [Hlt|Hle].
  - split; [done|]. intros [r ->]. rewrite length_app in Hlt. lia.
  - rewrite strcmp_eq_iff. split.
    + intros H. exists (take (length s - length suffix) s).
      pose proof (take_drop (length s - length suffix) s) as E.
      rewrite H in E. done.
    + intros [r ->]. rewrite length_app.
      replace (length r + length suffix - length suffix) with (length r) by lia.
      by rewrite drop_app_length.
Qed.



Lemma digit_value_range (c : ascii) :
  isdigit c = true -> (0 <= digit_value c <= 9)%Z /\ c <> ".".
Proof.
  intros H. split; [|by intros ->].
  unfold isdigit, digit_value in *.
  apply andb_true_iff in H as [H1%Nat.leb_le H2%Nat.leb_le]. lia.
Qed.

Lemma decimal_acc_mono (ds : cstring) (v : Z) :
  Forall (fun c => isdigit c = true) ds -> (0 <= v)%Z ->
  (v <= foldl (fun v c => (v * 10 + digit_value c)%Z) v ds)%Z.
Proof.
  intros Hds. revert v. induction Hds as [|c ds Hc _ IH]; intros v Hv;
    [simpl; lia|].
  cbn [foldl]. destruct (digit_value_range c Hc) as [Hr _].
  etrans; [|apply IH]; lia.
Qed.

Lemma design_index_digits (ds rest : cstring) (v : Z) :
  Forall (fun c => isdigit c = true) ds ->
  (0 <= v <= INT_MAX)%Z ->
  match rest with [] => True | c :: _ => c = "." end ->
  design_index (ds ++ rest) v
  = if (INT_MAX <? foldl (fun v c => (v * 10 + digit_value c)%Z) v ds)%Z
    then DigitsOverflow
    else DigitsStop rest (foldl (fun v c => (v * 10 + digit_value c)%Z) v ds).
Proof.
  intros Hds. revert v. induction Hds as [|c ds Hc Hds IH]; intros v Hv Hrest.
  - cbn [app foldl]. destruct (Z.ltb_spec INT_MAX v); [lia|].
    destruct rest as [|c rest]; [done|]. subst c. done.
  - cbn [app foldl design_index].
    destruct (digit_value_range c Hc) as [Hr Hdot].
    destruct (Ascii.eqb_spec c "."); [done|]. rewrite Hc. cbn [negb].
    destruct (Z.ltb_spec INT_MAX (v * 10 + digit_value c)) as [Hov|Hok].
    + pose proof (decimal_acc_mono ds (v * 10 + digit_value c)%Z Hds
                    ltac:(lia)) as Hm.
      destruct (Z.ltb_spec INT_MAX
                  (foldl (fun v c => (v * 10 + digit_value c)%Z)
                     (v * 10 + digit_value c)%Z ds)); [done|lia].
    + apply IH; [lia | done].
Qed.

Lemma design_index_inv (p p' : cstring) (v val : Z) :
  design_index p v = DigitsStop p' val ->
  exists ds, p = ds ++ p' /\ Forall (fun c => isdigit c = true) ds
             /\ val = foldl (fun v c => (v * 10 + digit_value c)%Z) v ds
             /\ match p' with [] => True | c :: _ => c = "." end
             /\ (ds <> [] -> (val <= INT_MAX)%Z).
Proof.
  revert v; induction p as [|c p IH]; intros v; cbn [design_index].
  - intros [= <- <-]. exists []. by repeat split.
  - destruct (Ascii.eqb_spec c ".") as [->|Hdot].
    { intros [= <- <-]. exists []. by repeat split. }
    destruct (isdigit c) eqn:Hc; [|done]. cbn [negb].
    destruct (Z.ltb_spec INT_MAX (v * 10 + digit_value c)) as [?|Hok]; [done|].
    intros (ds & -> & Hds & -> & Hp' & Hmax)%IH.
    exists (c :: ds). split; [done|]. split; [by constructor|].
    split; [done|]. split; [done|]. intros _.
    destruct ds as [|d ds]; [done|]. by apply Hmax.
Qed.

(** X18. [match_design_v] accepts exactly the names [design_<digits>.v] with
    at least one digit whose decimal value fits an [int], and returns that
    value, which is never negative; leading zeros are accepted and do not
    change the value.  When the digits stand for a value beyond [INT_MAX],
    the accumulation overflows the [int]. *)
Theorem match_design_v_spec :
  (forall ds : cstring,
      ds <> [] -> Forall (fun c => isdigit c = true) ds ->
      match_design_v (cstr "design_" ++ ds ++ cstr ".v")
      = if (INT_MAX <? decimal_value ds)%Z then IntOverflow
        else Match (decimal_value ds))
  /\ (forall (name : cstring) (idx : Z),
         match_design_v name = Match idx ->
         exists ds, name = cstr "design_" ++ ds ++ cstr ".v" /\ ds <> []
                    /\ Forall (fun c => isdigit c = true) ds
                    /\ idx = decimal_value ds /\ (0 <= idx <= INT_MAX)%Z)
  /\ (forall ds : cstring, decimal_value ("0" :: ds) = decimal_value ds).
Proof.
  split; [|split; [|done]].
  - intros ds Hne Hds. unfold match_design_v.
    assert (Hs : starts_with (cstr "design_" ++ ds ++ cstr ".v")
                   (cstr "design_") = true)
      by (apply starts_with_iff; eauto).
    assert (He : ends_with (cstr "design_" ++ ds ++ cstr ".v") (cstr ".v")
                 = true).
    { apply ends_with_iff. exists (cstr "design_" ++ ds).
      by rewrite <- (assoc_L (++)). }
    rewrite Hs, He. cbn [negb].
    change (drop 7 (cstr "design_" ++ ds ++ cstr ".v")) with (ds ++ cstr ".v").
    destruct ds as [|d ds]; [done|].
    pose proof Hds as Hall. apply Forall_cons in Hds as [Hd _].
    unfold char_at. cbn [app nth]. rewrite Hd. cbn [negb].
    pose proof (design_index_digits (d :: ds) (cstr ".v") 0 Hall) as Hi.
    cbn [app] in Hi. rewrite Hi; [|done|done].
    fold (decimal_value (d :: ds)).
    by destruct (INT_MAX <? decimal_value (d :: ds))%Z.
  - intros name idx. unfold match_design_v.
    destruct (starts_with name _) eqn:Hs; [|done].
    destruct (ends_with name _) eqn:He; [|done]. cbn [negb].
    apply starts_with_iff in Hs as [p ->].
    change (drop 7 (cstr "design_" ++ p)) with p.
    destruct (isdigit (char_at p 0)) eqn:Hd; [|done]. cbn [negb].
    destruct (design_index p 0) as [p' val| |] eqn:Hi; [|done..].
    destruct (strcmp_eq p' (cstr ".v")) eqn:Hp'; [|done].
    apply strcmp_eq_iff in Hp' as ->. intros [= <-].
    apply design_index_inv in Hi as (ds & -> & Hds & -> & _ & Hmax).
    assert (Hne : ds <> []) by (by intros ->).
    exists ds. repeat split; try done.
    + by apply (decimal_acc_mono ds 0).
    + by apply Hmax.
Qed.

Lemma match_design_v_spec_witness :
  match_design_v (cstr "design_" ++ cstr "007" ++ cstr ".v") = Match 7
  /\ match_design_v (cstr "design_" ++ cstr "99999999999" ++ cstr ".v")
     = IntOverflow
  /\ exists ds, cstr "design_12.v" = cstr "design_" ++ ds ++ cstr ".v"
                /\ ds <> [] /\ Forall (fun c => isdigit c = true) ds
                /\ 12%Z = decimal_value ds /\ (0 <= 12 <= INT_MAX)%Z.
Proof.
  destruct match_design_v_spec as (H1 & H2 & _).
  split; [|split].
  - apply (H1 (cstr "007")); [done | by repeat constructor].
  - apply (H1 (cstr "99999999999")); [done | by repeat constructor].
  - apply (H2 (cstr "design_12.v")). reflexivity.
Defined.

(** X19. The file name that [main] rebuilds from an index is recognised
    again with the same index: for every index that fits an [int],
    [match_design_v] on [design_<idx>.v] returns [idx]. *)
Theorem design_name_round_trip (idx : nat) :
  (Z.of_nat idx <= INT_MAX)%Z ->
  match_design_v (design_v_name idx) = Match (Z.of_nat idx).
Proof.
  intros Hmax. destruct (print_int_digits idx) as (Hne & Hds & Hval).
  unfold design_v_name, match_design_v.
  assert (Hs : starts_with (cstr "design_" ++ print_int idx ++ cstr ".v")
                 (cstr "design_") = true)
    by (apply starts_with_iff; eauto).
  assert (He : ends_with (cstr "design_" ++ print_int idx ++ cstr ".v")
                 (cstr ".v") = true).
  { apply ends_with_iff. exists (cstr "design_" ++ print_int idx).
    by rewrite <- (assoc_L (++)). }
  rewrite Hs, He. cbn [negb].
  change (drop 7 (cstr "design_" ++ print_int idx ++ cstr ".v"))
    with (print_int idx ++ cstr ".v").
  pose proof (design_index_digits (print_int idx) (cstr ".v") 0 Hds
                ltac:(done) ltac:(done)) as Hi.
  fold (decimal_value (print_int idx)) in Hi. rewrite Hval in Hi.
  destruct (Z.ltb_spec INT_MAX (Z.of_nat idx)); [lia|].
  destruct (print_int idx) as [|d ds]; [done|].
  apply Forall_cons in Hds as [Hd _].
  unfold char_at. cbn [app nth]. rewrite Hd. cbn [negb].
  cbn [app] in Hi. by rewrite Hi.
Qed.

Lemma design_name_round_trip_witness :
  match_design_v (design_v_name 2026) = Match 2026.
Proof. apply (design_name_round_trip 2026). done. Defined.

(** ** The rest of the statement *)

Lemma resync_skips (junk rest : cstring) :
  Forall (fun c => c <> ";" /\ c <> LF) junk ->
  resync (junk ++ ";" :: rest) = rest
  /\ resync (junk ++ LF :: rest) = LF :: rest
  /\ resync junk = [].
Proof.
  intros Hjunk. unfold resync.
  assert (Hall : Forall (fun c => negb (Ascii.eqb c ";")
                                  && negb (Ascii.eqb c LF) = true) junk).
  { eapply Forall_impl; [exact Hjunk|]. intros c [H1 H2].
    destruct (Ascii.eqb_spec c ";"); [done|].
    by destruct (Ascii.eqb_spec c LF). }
  split; [|split].
  - by rewrite (scan_while_app _ junk (";" :: rest)).
  - by rewrite (scan_while_app _ junk (LF :: rest)).
  - pose proof (scan_while_app
                  (fun c => negb (Ascii.eqb c ";") && negb (Ascii.eqb c LF))
                  junk [] Hall I) as H.
    rewrite app_nil_r in H. by rewrite H.
Qed.

(** X20. Once the port list of an instantiation is closed, the scan drops
    whatever follows up to the next semicolon or line feed: an instantiation
    in the printed format followed by any text free of semicolons and line
    feeds and then a semicolon is extracted as usual, and the scan goes on
    behind that semicolon, so that a second instantiation between the
    closing parenthesis and the semicolon is never seen. *)
Theorem rest_of_statement_skipped
    (i : instantiation) (junk rest : cstring) (luts : list Lut) :
  printable i ->
  Forall (fun c => c <> ";" /\ c <> LF) junk ->
  scan_body (i_cell i ++ SP :: i_name i ++ cstr " ( "
             ++ print_ports (i_ports i) ++ cstr " )" ++ junk ++ ";" :: rest)
    luts
  = Done (rest, luts ++ [lut_of i]).
Proof.
  intros (Hcell & Hname & Hports) Hjunk.
  set (tail := junk ++ ";" :: rest).
  replace (i_cell i ++ SP :: i_name i ++ cstr " ( "
           ++ print_ports (i_ports i) ++ cstr " )" ++ tail)
    with (i_cell i ++ SP :: i_name i
          ++ SP :: "(" :: SP :: print_ports (i_ports i) ++ SP :: ")" :: tail)
    by done.
  unfold scan_body.
  pose proof (parse_identifier_plain [] (i_cell i)
                (SP :: i_name i ++ SP :: "(" :: SP :: print_ports (i_ports i)
                 ++ SP :: ")" :: tail)
                ltac:(constructor) (is_gtp_lut_cell_plain _ Hcell)
                ltac:(done)) as H1.
  cbn [app] in H1. rewrite H1, Hcell. cbn [negb].
  pose proof (parse_identifier_plain [SP] (i_name i)
                (SP :: "(" :: SP :: print_ports (i_ports i)
                 ++ SP :: ")" :: tail)
                ltac:(by repeat constructor) Hname ltac:(done)) as H2.
  cbn [app] in H2. rewrite H2.
  change (skip_spaces (SP :: "(" :: SP :: print_ports (i_ports i)
                       ++ SP :: ")" :: tail))
    with ("(" :: SP :: print_ports (i_ports i) ++ SP :: ")" :: tail).
  cbn [Ascii.eqb Bool.eqb andb].
  rewrite (port_loop_printed (i_ports i) tail); [|done|lia].
  unfold tail. by destruct (resync_skips junk rest Hjunk) as [-> _].
Qed.

Lemma rest_of_statement_skipped_witness :
  scan_body
    (cstr "GTP_LUT6 u1 ( .I0(a) ) GTP_LUT6 u2 ( .I0(b) );" ++ LF :: cstr "x")
    []
  = Done (LF :: cstr "x", [mkLut (cstr "u1") [cstr "a"] false]).
Proof.
  apply (rest_of_statement_skipped
           (mkInstantiation (cstr "GTP_LUT6") (cstr "u1")
              [(cstr "I0", cstr "a")])
           (cstr " GTP_LUT6 u2 ( .I0(b) )") (LF :: cstr "x") []).
  - split; [reflexivity|]. split; [split; [done | repeat constructor]|].
    constructor; [|constructor].
    split; [split; [done | repeat constructor]|].
    repeat (constructor; [done|]). constructor.
  - repeat (constructor; [done|]). constructor.
Defined.

(** ** Progress of the scan *)

(** X21. The scan never stalls and never rewinds.  A trip through the outer
    loop on a text that is not exhausted leaves the cursor at a strictly
    shorter suffix of where it was and appends at most one instance to those
    found so far, unless it runs off the buffer; the same holds for a trip
    through the port loop, which keeps the name of the instance it fills.
    The extraction therefore ends on every input, with an instance list or
    with the overrun. *)
Theorem scan_never_stalls :
  (forall (p : cstring) (luts : list Lut),
      p <> [] ->
      match scan_body p luts with
      | Done (p', luts') =>
          p' `suffix_of` p /\ length p' < length p
          /\ (luts' = luts \/ exists l, luts' = luts ++ [l])
      | Overrun => True
      | OutOfFuel => False
      end)
  /\ (forall (p : cstring) (depth : Z) (lut : Lut),
         match port_body p depth lut with
         | PBreak p' _ lut' | PContinue p' _ lut' =>
             p' `suffix_of` p /\ length p' < length p /\ inst lut' = inst lut
         | PPastEnd => p <> [] -> all_space p
         end)
  /\ (forall buf_in : list ascii,
         parse_luts_from_buffer buf_in = Overrun
         \/ exists luts, parse_luts_from_buffer buf_in = Done luts).
Proof.
  split; [|split].
  - intros p luts Hp.
    pose proof (scan_body_advance p luts Hp) as Ha.
    pose proof (scan_body_suffix p luts) as Hs.
    destruct (scan_body p luts) as [[p' luts']| |]; [|done..].
    destruct Hs as [Hs Hl]. split; [done|]. split; [done|].
    destruct Hl as [?|(l & ? & _)]; eauto.
  - intros p depth lut.
    pose proof (port_body_advance p depth lut) as Ha.
    pose proof (port_body_suffix p depth lut) as Hs.
    destruct (port_body p depth lut) as [p' d' l'|p' d' l'|];
      [by destruct Hs..|].
    intros _. destruct (skip_spaces_split p) as (ws & Hp & Hws).
    rewrite Ha, app_nil_r in Hp. by subst ws.
  - intros buf_in. pose proof (parse_luts_from_buffer_fuel buf_in) as H.
    destruct (parse_luts_from_buffer buf_in) as [luts| |]; [|by left|done].
    right. by exists luts.
Qed.

Lemma scan_never_stalls_witness :
  match scan_body (cstr "wire GTP_LUT6 u1 ( .I0(a) );") [] with
  | Done (p', luts') =>
      p' `suffix_of` cstr "wire GTP_LUT6 u1 ( .I0(a) );"
      /\ length p' < length (cstr "wire GTP_LUT6 u1 ( .I0(a) );")
      /\ (luts' = [] \/ exists l, luts' = [] ++ [l])
  | Overrun => True
  | OutOfFuel => False
  end.
Proof.
  destruct scan_never_stalls as (H & _).
  apply (H (cstr "wire GTP_LUT6 u1 ( .I0(a) );") []). done.
Defined.
